(** * CKE-D cipher utilities: a shallow embedding of [utils/cipherUtils.ts]

    The codec maps every character of a user supplied key to its 1-based
    position and converts text to and from a stream of decimal indices.

    JavaScript strings are sequences of UTF-16 code units.  A code unit is
    modelled as a binary natural number, a string as the list of its code
    units.  Nothing below depends on the bound 65535 of a code unit, so that
    every statement proved for all lists holds for all JavaScript strings. *)

From Stdlib Require Import ZArith NArith Lia ZifyBool.
From Stdlib Require Import Strings.String Strings.Ascii.
From stdpp Require Import base tactics option list gmap.

Local Open Scope N_scope.

(** ** Strings *)

Abbreviation unit16 := N (only parsing).
Abbreviation jsstring := (list N) (only parsing).

(** Code units of an ASCII literal; used to write examples legibly. *)
Definition u (s : string) : jsstring :=
  List.map N_of_ascii (list_ascii_of_string s).

(** [!str]: the empty string is the only falsy string. *)
Definition falsy (s : jsstring) : bool :=
  match s with [] => true | _ => false end.

(** [Array.prototype.join]: the elements, separated by [sep]. *)
Fixpoint join (sep : jsstring) (parts : list jsstring) : jsstring :=
  match parts with
  | [] => []
  | [p] => p
  | p :: rest => p ++ sep ++ join sep rest
  end.

(** ** White space

    The regular expression class [\s], [String.prototype.trim] and the prefix
    skipped by [parseInt] all use the same set: WhiteSpace and LineTerminator
    of ECMAScript (TAB, LF, VT, FF, CR, SP, NBSP, the Unicode space
    separators, LS, PS and the byte order mark). *)
Definition is_ws (c : unit16) : bool :=
  ((9 <=? c) && (c <=? 13))
  || (c =? 32) || (c =? 160) || (c =? 5760)
  || ((8192 <=? c) && (c <=? 8202))
  || (c =? 8232) || (c =? 8233) || (c =? 8239) || (c =? 8287)
  || (c =? 12288) || (c =? 65279).

Fixpoint drop_ws (s : jsstring) : jsstring :=
  match s with
  | c :: s' => if is_ws c then drop_ws s' else s
  | [] => []
  end.

(** [str.trim()] *)
Definition trim (s : jsstring) : jsstring :=
  reverse (drop_ws (reverse (drop_ws s))).

(** [str.replace(/\s/g, '')] *)
Definition strip_ws (s : jsstring) : jsstring :=
  List.filter (fun c => negb (is_ws c)) s.

(** ** Numbers

    The numbers of the codec are indices and lengths.  They are modelled as
    integers; [toString] is [Number.prototype.toString] on the integers that
    print without an exponent, which covers every index of a key. *)

Definition is_digit (c : unit16) : bool := (48 <=? c) && (c <=? 57).

Fixpoint digits_loop (fuel : nat) (n : N) (acc : jsstring) : jsstring :=
  let acc' := (48 + n mod 10) :: acc in
  match fuel with
  | O => acc'
  | S fuel' => if n / 10 =? 0 then acc' else digits_loop fuel' (n / 10) acc'
  end.

(** Decimal digits of [n], most significant first.  A number below
    [2 ^ (fuel + 1)] has at most [fuel + 1] decimal digits. *)
Definition digits (n : N) : jsstring :=
  digits_loop (N.to_nat (N.log2 n)) n [].

Definition toString (z : Z) : jsstring :=
  if (z <? 0)%Z then 45 :: digits (Z.to_N (- z)) else digits (Z.to_N z).

(** The longest prefix of decimal digits, read in base ten; [None] when the
    prefix is empty. *)
Fixpoint read_digits (acc : option N) (s : jsstring) : option N :=
  match s with
  | c :: s' =>
      if is_digit c
      then read_digits (Some (10 * default 0 acc + (c - 48))) s'
      else acc
  | [] => acc
  end.

(** [parseInt(str, 10)]: leading white space is skipped, one sign is
    accepted, then the longest run of decimal digits is read and whatever
    follows it is ignored.  [None] stands for [NaN].  The result is the exact
    integer: the source only compares it with [0] and with the length of a
    string, and rounding to a double does not change those comparisons. *)
Definition parseInt (s : jsstring) : option Z :=
  let s1 := drop_ws s in
  let '(neg, s2) :=
    match s1 with
    | 45 :: r => (true, r)
    | 43 :: r => (false, r)
    | _ => (false, s1)
    end in
  match read_digits None s2 with
  | None => None
  | Some n => Some (if neg : bool then (- Z.of_N n)%Z else Z.of_N n)
  end.

(** ** [Map<string, number>] and [Set<string>]

    The key map is only ever queried with one-unit strings, so it is a finite
    map from code units to numbers.  A JavaScript [Set] iterates in insertion
    order; it is a duplicate-free list that grows at the end. *)

Abbreviation KeyMap := (gmap N Z) (only parsing).

Definition set_has (s : list jsstring) (x : jsstring) : bool :=
  bool_decide (x ∈ s).

Definition set_add (s : list jsstring) (x : jsstring) : list jsstring :=
  if set_has s x then s else s ++ [x].

(** [new Set(array)] *)
Definition new_Set (l : list jsstring) : list jsstring :=
  fold_left set_add l [].

(** [str.split('')]: one string per code unit. *)
Definition split_units (s : jsstring) : list jsstring :=
  List.map (fun c => [c]) s.

(** Iteration of a string with [for ... of]: by code point, a high surrogate
    followed by a low surrogate forming one two-unit string. *)
Definition is_high_surrogate (c : unit16) : bool := (55296 <=? c) && (c <=? 56319).
Definition is_low_surrogate (c : unit16) : bool := (56320 <=? c) && (c <=? 57343).

Fixpoint code_points (s : jsstring) : list jsstring :=
  match s with
  | [] => []
  | h :: t =>
      match t with
      | l :: rest =>
          if is_high_surrogate h && is_low_surrogate l
          then [h; l] :: code_points rest
          else [h] :: code_points t
      | [] => [[h]]
      end
  end.

(** ** The key *)

(** The loop of [generateKeyMap], at index [i] with [key] left to read. *)
Fixpoint generateKeyMap_loop (key : jsstring) (i : nat) (map : KeyMap) : KeyMap :=
  match key with
  | [] => map
  | char :: rest =>
      generateKeyMap_loop rest (S i)
        (if bool_decide (is_Some (map !! char)) then map
         else <[char := (Z.of_nat i + 1)%Z]> map)
  end.

Definition generateKeyMap (key : jsstring) : KeyMap :=
  generateKeyMap_loop key 0%nat ∅.

Definition cleanKey (key : jsstring) : jsstring :=
  join [] (new_Set (split_units key)).

Definition getDuplicateChars_step (st : list jsstring * list jsstring)
    (char : jsstring) : list jsstring * list jsstring :=
  let '(seen, duplicates) := st in
  (set_add seen char,
   if set_has seen char then set_add duplicates char else duplicates).

Definition getDuplicateChars (key : jsstring) : list jsstring :=
  snd (fold_left getDuplicateChars_step (code_points key) ([], [])).

Definition PRESET_BASE64 : jsstring :=
  u "ABCDEFGHIJKLMNOPQRSTUVWXYZabcdefghijklmnopqrstuvwxyz0123456789+/=:;,-.".

(** ** Base64 hygiene *)

(** The character class [[A-Za-z0-9+/=]]. *)
Definition base64_class (c : unit16) : bool :=
  ((65 <=? c) && (c <=? 90)) || ((97 <=? c) && (c <=? 122))
  || ((48 <=? c) && (c <=? 57)) || (c =? 43) || (c =? 47) || (c =? 61).

(** [/^[A-Za-z0-9+/=]+$/.test(s)]: without the [m] flag the anchors are the
    two ends of the string, so the whole string is one non-empty run of the
    class. *)
Definition test_base64_regex (s : jsstring) : bool :=
  match s with
  | [] => false
  | _ => forallb base64_class s
  end.

Definition isValidBase64 (str : jsstring) : bool :=
  if falsy str then true
  else
    let clean := strip_ws str in
    if (length clean =? 0)%nat then true
    else test_base64_regex clean.

Definition sanitizeBase64Input (str : jsstring) : jsstring := strip_ws str.

(** ** Encoder *)

Module Enc.
Record t := mk { result : jsstring; hasUnmapped : bool }.
End Enc.

(** One iteration of the loop of [encodeString]; the state is the array
    [result] and the flag [hasUnmapped]. *)
Definition encode_step (keyMap : KeyMap) (st : list jsstring * bool)
    (char : unit16) : list jsstring * bool :=
  let '(result, hasUnmapped) := st in
  match keyMap !! char with
  | Some index => (result ++ [toString index], hasUnmapped)
  | None =>
      (result ++ [[char]],
       if negb (falsy (trim [char])) then true else hasUnmapped)
  end.

Definition encodeString (input : jsstring) (keyMap : KeyMap)
    (separator : jsstring) : Enc.t :=
  if falsy input then Enc.mk [] false
  else
    let '(result, hasUnmapped) := fold_left (encode_step keyMap) input ([], false) in
    Enc.mk (join separator result) hasUnmapped.

(** ** [String.prototype.split]

    Both splitters of the decoder cut the text at the successive leftmost
    matches of a pattern that never matches the empty string.  [find s] is
    the first match in [s], as the pair of its start and end offsets.  Every
    round removes at least one code unit, so [length s] rounds suffice. *)

Fixpoint split_loop (find : jsstring -> option (nat * nat)) (fuel : nat)
    (s : jsstring) : list jsstring :=
  match fuel with
  | O => [s]
  | S fuel' =>
      match find s with
      | None => [s]
      | Some (q, e) => take q s :: split_loop find fuel' (drop e s)
      end
  end.

Fixpoint starts_with (p s : jsstring) : bool :=
  match p, s with
  | [], _ => true
  | a :: p', b :: s' => (a =? b) && starts_with p' s'
  | _ :: _, [] => false
  end.

(** [s.indexOf(sep)] *)
Fixpoint indexOf (sep s : jsstring) : option nat :=
  if starts_with sep s then Some 0%nat
  else
    match s with
    | [] => None
    | _ :: s' => S <$> indexOf sep s'
    end.

Definition find_literal (sep s : jsstring) : option (nat * nat) :=
  (fun q => (q, (q + length sep)%nat)) <$> indexOf sep s.

(** Length of the longest prefix of white space. *)
Fixpoint ws_run (s : jsstring) : nat :=
  match s with
  | c :: s' => if is_ws c then S (ws_run s') else 0%nat
  | [] => 0%nat
  end.

(** First match of [/\s+/]: the leftmost white space, extended greedily. *)
Fixpoint find_ws (s : jsstring) : option (nat * nat) :=
  match s with
  | [] => None
  | c :: s' =>
      if is_ws c then Some (0%nat, S (ws_run s'))
      else (fun '(q, e) => (S q, S e)) <$> find_ws s'
  end.

(** [s.split(sep)] for a non-empty string [sep]. *)
Definition split_literal (sep s : jsstring) : list jsstring :=
  split_loop (find_literal sep) (length s) s.

(** [s.split(/\s+/)] *)
Definition split_ws (s : jsstring) : list jsstring :=
  split_loop find_ws (length s) s.

(** ** Decoder *)

Module Dec.
Record t := mk { result : jsstring; hasErrors : bool }.
End Dec.

(** [key[i]] as pushed onto an array of strings and joined: an index out of
    range gives [undefined], which [join] prints as the empty string. *)
Definition char_at (key : jsstring) (i : Z) : jsstring :=
  if (i <? 0)%Z then []
  else match key !! Z.to_nat i with Some c => [c] | None => [] end.

Definition in_range (key : jsstring) (index : Z) : bool :=
  (0 <? index)%Z && (index <=? Z.of_nat (length key))%Z.

(** One iteration of the continuous-mode loop. *)
Definition decode_char_step (key : jsstring) (st : list jsstring * bool)
    (char : unit16) : list jsstring * bool :=
  let '(result, hasErrors) := st in
  let code := char in
  if (48 <=? code) && (code <=? 57) then
    match parseInt [char] with
    | Some index =>
        if in_range key index
        then (result ++ [char_at key (index - 1)], hasErrors)
        else (result ++ [[char]], true)
    | None => (result ++ [[char]], true)
    end
  else
    (result ++ [[char]],
     if negb (falsy (trim [char])) then true else hasErrors).

(** One iteration of the separator-mode loop. *)
Definition decode_part_step (key : jsstring) (st : list jsstring * bool)
    (part : jsstring) : list jsstring * bool :=
  let '(result, hasErrors) := st in
  if falsy part then st
  else
    match parseInt part with
    | Some index =>
        if in_range key index
        then (result ++ [char_at key (index - 1)], hasErrors)
        else (result ++ [part], true)
    | None => (result ++ [part], true)
    end.

(** [separator === ' ' ? encoded.split(/\s+/) : encoded.split(separator)] *)
Definition decoder_parts (encoded separator : jsstring) : list jsstring :=
  if bool_decide (separator = [32]) then split_ws encoded
  else split_literal separator encoded.

Definition decodeString (encoded key separator : jsstring) : Dec.t :=
  if falsy encoded || falsy key then Dec.mk [] false
  else
    let '(result, hasErrors) :=
      if falsy separator then
        fold_left (decode_char_step key) encoded ([], false)
      else
        let parts := decoder_parts encoded separator in
        fold_left (decode_part_step key) parts ([], false) in
    Dec.mk (join [] result) hasErrors.

(** ** The workspace component ([components/CipherWorkspace.tsx])

    The component keeps its state in React hooks.  A handler reads the state
    of the render it was created in and queues updates that are applied
    together, the last update of a hook winning; a handler is therefore a
    function from the state to the next state.  [keyMap] and [duplicates]
    are memoised on [keyString], that is, functions of the state.  The codec
    never throws, so the [catch] branch of [handleProcess] is never taken.
    [handleCopy] writes to the clipboard and starts a timer; it is not
    modelled, and no handler below touches [isCopied]. *)

Module CipherWorkspace.

Inductive Mode := encode | decode.
Inductive MsgType := error | warning.
Record Message := { type : MsgType; text : string }.

Record State := {
  keyString : jsstring;
  inputText : jsstring;
  outputText : jsstring;
  mode : Mode;
  validationMsg : option Message;
  isCopied : bool
}.

(** The state of the first render. *)
Definition initial : State :=
  {| keyString := PRESET_BASE64; inputText := []; outputText := [];
     mode := encode; validationMsg := None; isCopied := false |}.

Definition separator : jsstring := [32].

Definition keyMap (s : State) : KeyMap := generateKeyMap (keyString s).
Definition duplicates (s : State) : list jsstring := getDuplicateChars (keyString s).

Definition handleProcess (s : State) : State :=
  if falsy (trim (inputText s)) then
    {| keyString := keyString s; inputText := inputText s; outputText := [];
       mode := mode s; validationMsg := None; isCopied := isCopied s |}
  else
    match mode s with
    | encode =>
        let cleanInput := sanitizeBase64Input (inputText s) in
        let r := encodeString cleanInput (keyMap s) separator in
        {| keyString := keyString s; inputText := inputText s;
           outputText := Enc.result r; mode := mode s;
           validationMsg :=
             if Enc.hasUnmapped r then
               Some {| type := warning;
                       text := "Some characters in the input were not found in the Key and were left as-is." |}
             else None;
           isCopied := isCopied s |}
    | decode =>
        let r := decodeString (inputText s) (keyString s) separator in
        {| keyString := keyString s; inputText := inputText s;
           outputText := Dec.result r; mode := mode s;
           validationMsg :=
             if Dec.hasErrors r then
               Some {| type := error;
                       text := "Input contained codes that were invalid or out of bounds for the current key." |}
             else None;
           isCopied := isCopied s |}
    end.

Definition swapMode (s : State) : State :=
  {| keyString := keyString s;
     inputText := if negb (falsy (outputText s)) then outputText s else [];
     outputText := [];
     mode := match mode s with encode => decode | decode => encode end;
     validationMsg := None; isCopied := isCopied s |}.

Definition handleCleanKey (s : State) : State :=
  {| keyString := cleanKey (keyString s); inputText := inputText s;
     outputText := outputText s; mode := mode s;
     validationMsg := validationMsg s; isCopied := isCopied s |}.

Definition resetKey (s : State) : State :=
  {| keyString := PRESET_BASE64; inputText := inputText s;
     outputText := outputText s; mode := mode s;
     validationMsg := validationMsg s; isCopied := isCopied s |}.

(** The badge "Valid Format" over the input. *)
Definition showsValidFormat (s : State) : bool :=
  (0 <? length (inputText s))%nat
  && match mode s with encode => true | decode => false end
  && isValidBase64 (inputText s).

(** The button "Fix Duplicates", shown in place of "Valid Key". *)
Definition showsFixDuplicates (s : State) : bool :=
  (0 <? length (duplicates s))%nat.

(** What the user can do: type into the key editor or into the input, clear
    the input, and press a button.  The buttons are taken as always there
    ("Fix Duplicates" is rendered only while duplicates are reported), so the
    sequences of events considered include all that can occur. *)
Inductive Event :=
  | SetKeyString (value : jsstring)
  | SetInputText (value : jsstring)
  | ClearInput
  | Process
  | Swap
  | CleanKey
  | ResetKey.

Definition step (s : State) (e : Event) : State :=
  match e with
  | SetKeyString value =>
      {| keyString := value; inputText := inputText s; outputText := outputText s;
         mode := mode s; validationMsg := validationMsg s; isCopied := isCopied s |}
  | SetInputText value =>
      {| keyString := keyString s; inputText := value; outputText := outputText s;
         mode := mode s; validationMsg := validationMsg s; isCopied := isCopied s |}
  | ClearInput =>
      {| keyString := keyString s; inputText := []; outputText := outputText s;
         mode := mode s; validationMsg := validationMsg s; isCopied := isCopied s |}
  | Process => handleProcess s
  | Swap => swapMode s
  | CleanKey => handleCleanKey s
  | ResetKey => resetKey s
  end.

(** The state after a sequence of events, from the first render. *)
Definition run (events : list Event) : State := fold_left step events initial.

End CipherWorkspace.

(** * Reference definitions, written after the prose of the design

    They are compared with the code above; none of them is used by it. *)

(** "Retaining only the first occurrence of each character, in original
    order": the characters at the positions where nothing equal precedes. *)
Definition first_occurrences (K : jsstring) : jsstring :=
  omap (fun i =>
          match K !! i with
          | Some c => if bool_decide (c ∈ take i K) then None else Some c
          | None => None
          end)
       (seq 0 (length K)).

(** A text laid out as tokens, each followed by a gap:
    [t1 ++ g1 ++ t2 ++ g2 ++ ...]. *)
Fixpoint layout (items : list (jsstring * jsstring)) : jsstring :=
  match items with
  | [] => []
  | (t, g) :: rest => t ++ g ++ layout rest
  end.

Definition no_ws (s : jsstring) : bool := forallb (fun c => negb (is_ws c)) s.
Definition all_ws (s : jsstring) : bool := forallb is_ws s.
Definition nonempty (s : jsstring) : bool := negb (falsy s).

(** The tokens are non-empty and free of white space, the gaps are runs of
    white space, and only the last gap may be empty. *)
Fixpoint spaced (items : list (jsstring * jsstring)) : Prop :=
  match items with
  | [] => True
  | (t, g) :: rest =>
      t <> [] /\ no_ws t = true /\ all_ws g = true /\
      (rest <> [] -> g <> []) /\ spaced rest
  end.

(** "If the index lies in [1, key.length], key[index-1]". *)
Definition lookup_index (key : jsstring) (index : Z) : option unit16 :=
  if ((1 <=? index)%Z && (index <=? Z.of_nat (length key))%Z)
  then key !! Z.to_nat (index - 1)
  else None.

(** The token of one input character: the decimal string of its index, or
    the character itself when the key map does not have it. *)
Definition encode_token (keyMap : KeyMap) (c : unit16) : jsstring :=
  match keyMap !! c with
  | Some index => toString index
  | None => [c]
  end.

(** An unmapped character that is not white space. *)
Definition unmapped_visible (keyMap : KeyMap) (c : unit16) : bool :=
  bool_decide (keyMap !! c = None) && negb (is_ws c).

(** Continuous mode, one character: the piece appended to the result and
    whether the character raises the error flag. *)
Definition continuous_outcome (key : jsstring) (c : unit16) : jsstring * bool :=
  if is_digit c then
    match lookup_index key (Z.of_N c - 48) with
    | Some k => ([k], false)
    | None => ([c], true)
    end
  else ([c], negb (is_ws c)).

(** Separator mode, one non-empty token, the integer parse being the one of
    [parseInt]: a sign and a run of digits at the start of the token are
    enough, what follows them is ignored. *)
Definition token_outcome (key tok : jsstring) : jsstring * bool :=
  match parseInt tok with
  | Some index =>
      match lookup_index key index with
      | Some k => ([k], false)
      | None => (tok, true)
      end
  | None => (tok, true)
  end.

(** A token that is an integer as a whole: an optional sign followed by one
    or more decimal digits and nothing else. *)
Definition valid_integer (tok : jsstring) : bool :=
  let ds := match tok with
            | 45 :: r => r
            | 43 :: r => r
            | _ => tok
            end in
  nonempty ds && forallb is_digit ds.

(** Separator mode, one non-empty token, when only a token that is an
    integer as a whole counts as parsed. *)
Definition strict_token_outcome (key tok : jsstring) : jsstring * bool :=
  if valid_integer tok then token_outcome key tok else (tok, true).

(** The alphabet of Base64 with its padding character, spelled out. *)
Definition base64_alphabet : jsstring :=
  u "ABCDEFGHIJKLMNOPQRSTUVWXYZabcdefghijklmnopqrstuvwxyz0123456789+/=".

(** The decoder's answer for a list of tokens, given what one token
    contributes: the pieces are concatenated, the flag is raised when some
    token raises it. *)
Definition decode_with (outcome : jsstring -> jsstring * bool)
    (toks : list jsstring) : Dec.t :=
  Dec.mk (concat ((fun t => (outcome t).1) <$> toks))
         (existsb (fun t => (outcome t).2) toks).

(** Tokens laid out with the same gap between any two of them. *)
Fixpoint gapped (g : jsstring) (ts : list jsstring) : list (jsstring * jsstring) :=
  match ts with
  | [] => []
  | [t] => [(t, [])]
  | t :: rest => (t, g) :: gapped g rest
  end.

(** [x] stands at two different positions of [l]. *)
Definition occurs_twice {A} (x : A) (l : list A) : Prop :=
  exists i j, (i < j)%nat /\ l !! i = Some x /\ l !! j = Some x.

(** A code unit outside both surrogate ranges. *)
Definition not_surrogate (c : unit16) : bool :=
  negb (is_high_surrogate c) && negb (is_low_surrogate c).

(** The message on display belongs to the current mode: a warning comes
    from encoding, an error from decoding. *)
Definition message_matches_mode (s : CipherWorkspace.State) : Prop :=
  match CipherWorkspace.validationMsg s with
  | None => True
  | Some m =>
      match CipherWorkspace.mode s with
      | CipherWorkspace.encode => CipherWorkspace.type m = CipherWorkspace.warning
      | CipherWorkspace.decode => CipherWorkspace.type m = CipherWorkspace.error
      end
  end.

(** The white space of ECMAScript, code unit by code unit. *)
Definition whitespace_units : jsstring :=
  [9; 10; 11; 12; 13; 32; 160; 5760;
   8192; 8193; 8194; 8195; 8196; 8197; 8198; 8199; 8200; 8201; 8202;
   8232; 8233; 8239; 8287; 12288; 65279].

(** A text with every white space character taken out, the others staying
    in their order. *)
Definition without_white_space (s : jsstring) : jsstring :=
  filter (fun c => c ∉ whitespace_units) s.

(** The number a string of decimal digits denotes. *)
Definition decimal_value (s : jsstring) : N :=
  fold_left (fun a d => 10 * a + (d - 48)) s 0.

(** [s] is the decimal string of the natural number [n]: digits only, at
    least one, denoting [n], with no leading zero. *)
Definition is_decimal_of (n : N) (s : jsstring) : Prop :=
  s <> [] /\ Forall (fun d => 48 <= d <= 57) s /\ decimal_value s = n /\
  (head s = Some 48 -> s = [48]).

(** [s] is the decimal string of the integer [z], with a minus sign in
    front when [z] is negative. *)
Definition is_number_string (z : Z) (s : jsstring) : Prop :=
  if decide (0 <= z)%Z then is_decimal_of (Z.to_N z) s
  else exists t, s = 45 :: t /\ is_decimal_of (Z.to_N (- z)) t.

(** The tokens with the separator between any two of them. *)
Definition separated (sep : jsstring) (toks : list jsstring) : jsstring :=
  match toks with
  | [] => []
  | t :: rest => t ++ concat ((fun q => sep ++ q) <$> rest)
  end.

(** * Properties of the building blocks *)

(** ** The key map *)

Section keymap.
Implicit Types (key : list N) (map : gmap N Z) (c : N) (i : nat).

Lemma generateKeyMap_loop_keeps key : forall i map c v,
  map !! c = Some v -> generateKeyMap_loop key i map !! c = Some v.
Proof.
  induction key as [|char rest IH]; intros i map c v Hc; simpl; [done|].
  apply IH. case_bool_decide as Hs; [done|].
  destruct (decide (char = c)) as [->|Hne].
  - exfalso. apply Hs. by exists v.
  - by rewrite lookup_insert_ne.
Qed.

Lemma generateKeyMap_loop_absent key : forall i map c,
  map !! c = None -> c ∉ key -> generateKeyMap_loop key i map !! c = None.
Proof.
  induction key as [|char rest IH]; intros i map c Hc Hnin; simpl; [done|].
  apply not_elem_of_cons in Hnin as [Hne Hnin].
  apply IH; [|done]. case_bool_decide; [done|].
  by rewrite lookup_insert_ne.
Qed.

Lemma generateKeyMap_loop_first key : forall i map c j,
  map !! c = None -> key !! j = Some c ->
  (forall k, (k < j)%nat -> key !! k <> Some c) ->
  generateKeyMap_loop key i map !! c = Some (Z.of_nat (i + j) + 1)%Z.
Proof.
  induction key as [|char rest IH]; intros i map c j Hc Hj Hfirst; [done|].
  simpl. destruct j as [|j].
  - simplify_eq/=. apply generateKeyMap_loop_keeps.
    case_bool_decide as Hs.
    + destruct Hs as [v Hv]. congruence.
    + rewrite lookup_insert_eq. do 2 f_equal. lia.
  - simpl in Hj.
    assert (char <> c) as Hne.
    { intros ->. by apply (Hfirst 0%nat); [lia|]. }
    replace (i + S j)%nat with (S i + j)%nat by lia.
    apply IH; [|done|].
    + case_bool_decide; [done|]. by rewrite lookup_insert_ne.
    + intros k Hk. apply (Hfirst (S k)). lia.
Qed.

(** Every character of a string has a first occurrence. *)
Lemma first_occurrence key c :
  c ∈ key ->
  exists j, key !! j = Some c /\ forall k, (k < j)%nat -> key !! k <> Some c.
Proof.
  induction key as [|char rest IH]; intros Hin; [by apply elem_of_nil in Hin|].
  destruct (decide (char = c)) as [->|Hne].
  - exists 0%nat. split; [done|]. lia.
  - apply elem_of_cons in Hin as [->|Hin]; [done|].
    destruct (IH Hin) as (j & Hj & Hfirst). exists (S j). split; [done|].
    intros [|k] Hk; simpl; [congruence|]. apply Hfirst. lia.
Qed.
End keymap.

(** ** Printing and reading indices *)

Section numbers.
Implicit Types (n : N) (a : option N) (s ds rest : list N).

Lemma is_digit_not_ws c : is_digit c = true -> is_ws c = false.
Proof. unfold is_digit, is_ws. intros H. lia. Qed.

Lemma is_digit_of_mod n : is_digit (48 + n mod 10) = true.
Proof.
  unfold is_digit. assert (n mod 10 < 10) as H by (apply N.mod_upper_bound; lia).
  revert H. generalize (n mod 10). intros m Hm. lia.
Qed.

Lemma read_digits_step a c rest :
  is_digit c = true ->
  read_digits a (c :: rest) = read_digits (Some (10 * default 0 a + (c - 48))) rest.
Proof. intros H. simpl. by rewrite H. Qed.

Lemma digits_loop_read fuel : forall n tail,
  n < 2 ^ (N.of_nat fuel + 1) ->
  exists ds,
    digits_loop fuel n tail = ds ++ tail /\ ds <> [] /\
    forallb is_digit ds = true /\
    forall a rest,
      read_digits a (ds ++ rest)
      = read_digits (Some (default 0 a * 10 ^ N.of_nat (length ds) + n)) rest.
Proof.
  assert (Hone : forall n tail, n < 10 ->
    exists ds, (48 + n mod 10) :: tail = ds ++ tail /\ ds <> [] /\
      forallb is_digit ds = true /\
      forall a rest, read_digits a (ds ++ rest)
        = read_digits (Some (default 0 a * 10 ^ N.of_nat (length ds) + n)) rest).
  { intros n tail Hn. exists [48 + n mod 10]. split_and!; [done|done| |].
    - simpl. by rewrite is_digit_of_mod.
    - intros a rest. simpl app. rewrite read_digits_step by apply is_digit_of_mod.
      do 2 f_equal. rewrite (N.mod_small n 10) by done.
      change (N.of_nat (length [48 + n])) with 1. rewrite N.pow_1_r. lia. }
  induction fuel as [|fuel IH]; intros n tail Hn.
  - simpl in *. apply Hone. lia.
  - simpl digits_loop. destruct (N.eqb_spec (n / 10) 0) as [Hz|Hnz].
    + apply Hone. apply N.div_small_iff in Hz; lia.
    + destruct (IH (n / 10) ((48 + n mod 10) :: tail)) as (ds & Heq & Hne & Hall & Hread).
      { replace (N.of_nat (S fuel) + 1) with (N.succ (N.of_nat fuel + 1)) in Hn by lia.
        rewrite N.pow_succ_r' in Hn.
        assert (n / 10 <= n / 2) by (apply N.div_le_compat_l; lia).
        assert (n / 2 < 2 ^ (N.of_nat fuel + 1)) by (apply N.Div0.div_lt_upper_bound; lia).
        lia. }
      exists (ds ++ [48 + n mod 10]). split_and!.
      * by rewrite Heq, <- app_assoc.
      * by destruct ds.
      * rewrite forallb_app, Hall. simpl. by rewrite is_digit_of_mod.
      * intros a rest. rewrite <- app_assoc. simpl app. rewrite Hread.
        rewrite read_digits_step by apply is_digit_of_mod.
        f_equal. f_equal. rewrite length_app. simpl length.
        replace (N.of_nat (length ds + 1)) with (N.succ (N.of_nat (length ds))) by lia.
        rewrite N.pow_succ_r'. simpl default.
        pose proof (N.div_mod n 10 ltac:(lia)) as Hdm.
        assert (n mod 10 < 10) as Hm by (apply N.mod_upper_bound; lia).
        revert Hdm Hm. generalize (n mod 10) (n / 10) (10 ^ N.of_nat (length ds)).
        intros m q p Hdm Hm. nia.
Qed.

(** The digits of [n] are a non-empty run of decimal digits that reads
    back as [n]. *)
Lemma digits_read n :
  digits n <> [] /\ forallb is_digit (digits n) = true /\
  forall rest, read_digits None (digits n ++ rest) = read_digits (Some n) rest.
Proof.
  unfold digits.
  destruct (digits_loop_read (N.to_nat (N.log2 n)) n []) as (ds & Heq & Hne & Hall & Hread).
  { rewrite N2Nat.id. destruct (N.eq_dec n 0) as [->|Hn]; [done|].
    rewrite N.add_1_r. apply N.log2_spec. lia. }
  rewrite Heq, app_nil_r. split_and!; [done|done|].
  intros rest. rewrite Hread. simpl. do 2 f_equal.
Qed.
End numbers.

(** ** Insertion-ordered sets and [cleanKey] *)

Section sets.
Implicit Types (x : list N) (s l : list (list N)) (key : list N) (c : N).

Lemma join_nil l : join [] l = concat l.
Proof.
  induction l as [|p [|q l] IH]; [done| |].
  - simpl. by rewrite app_nil_r.
  - change (join [] (p :: q :: l)) with (p ++ [] ++ join [] (q :: l)).
    by rewrite IH.
Qed.

Lemma set_has_true s x : set_has s x = true <-> x ∈ s.
Proof. unfold set_has. by rewrite bool_decide_eq_true. Qed.

Lemma set_has_false s x : set_has s x = false <-> x ∉ s.
Proof. unfold set_has. by rewrite bool_decide_eq_false. Qed.

Lemma elem_of_set_add s x y : y ∈ set_add s x <-> y ∈ s \/ y = x.
Proof.
  unfold set_add. destruct (set_has s x) eqn:Hx.
  - apply set_has_true in Hx. split; [by left|]. by intros [?| ->].
  - rewrite elem_of_app, list_elem_of_singleton. done.
Qed.

Lemma NoDup_set_add s x : NoDup s -> NoDup (set_add s x).
Proof.
  intros Hs. unfold set_add. destruct (set_has s x) eqn:Hx; [done|].
  apply set_has_false in Hx. apply NoDup_app. split_and!; [done| |apply NoDup_singleton].
  intros y Hy Hyx. apply list_elem_of_singleton in Hyx. by subst.
Qed.

Lemma new_Set_snoc l x : new_Set (l ++ [x]) = set_add (new_Set l) x.
Proof. unfold new_Set. by rewrite fold_left_app. Qed.

Lemma elem_of_new_Set l y : y ∈ new_Set l <-> y ∈ l.
Proof.
  induction l as [|x l IH] using rev_ind; [done|].
  rewrite new_Set_snoc, elem_of_set_add, IH, elem_of_app, list_elem_of_singleton. done.
Qed.

Lemma NoDup_new_Set l : NoDup (new_Set l).
Proof.
  induction l as [|x l IH] using rev_ind; [apply NoDup_nil_2|].
  rewrite new_Set_snoc. by apply NoDup_set_add.
Qed.

Lemma split_units_snoc key c : split_units (key ++ [c]) = split_units key ++ [[c]].
Proof. unfold split_units. by rewrite map_app. Qed.

Lemma elem_of_split_units key c : [c] ∈ split_units key <-> c ∈ key.
Proof.
  unfold split_units. rewrite list_elem_of_In, in_map_iff. split.
  - intros (d & Heq & Hin). simplify_eq. by apply list_elem_of_In.
  - intros Hin. exists c. split; [done|]. by apply list_elem_of_In.
Qed.

Lemma concat_split_units key : concat (split_units key) = key.
Proof. induction key as [|c key IH]; simpl; by f_equal. Qed.

(** [cleanKey], one character at a time. *)
Lemma cleanKey_snoc key c :
  cleanKey (key ++ [c]) = if bool_decide (c ∈ key) then cleanKey key else cleanKey key ++ [c].
Proof.
  unfold cleanKey. rewrite !join_nil, split_units_snoc, new_Set_snoc.
  unfold set_add, set_has.
  rewrite (bool_decide_ext _ (c ∈ key)).
  2:{ by rewrite elem_of_new_Set, elem_of_split_units. }
  case_bool_decide; [done|]. rewrite concat_app. simpl. done.
Qed.

Lemma elem_of_cleanKey key c : c ∈ cleanKey key <-> c ∈ key.
Proof.
  induction key as [|d key IH] using rev_ind; [done|].
  rewrite cleanKey_snoc. case_bool_decide as Hd.
  - rewrite IH, elem_of_app, list_elem_of_singleton.
    split; [by left|]. by intros [?| ->].
  - by rewrite !elem_of_app, IH.
Qed.

Lemma NoDup_cleanKey key : NoDup (cleanKey key).
Proof.
  induction key as [|d key IH] using rev_ind; [apply NoDup_nil_2|].
  rewrite cleanKey_snoc. case_bool_decide as Hd; [done|].
  apply NoDup_app. split_and!; [done| |apply NoDup_singleton].
  intros y Hy Hyd. apply list_elem_of_singleton in Hyd. subst.
  rewrite elem_of_cleanKey in Hy. contradiction.
Qed.

Lemma cleanKey_NoDup key : NoDup key -> cleanKey key = key.
Proof.
  induction key as [|d key IH] using rev_ind; [intros _; reflexivity|].
  intros Hnd. apply NoDup_app in Hnd as (Hkey & Hd & _).
  rewrite cleanKey_snoc, bool_decide_eq_false_2.
  - by rewrite IH.
  - intros Hin. apply (Hd d Hin). by apply list_elem_of_singleton.
Qed.

Lemma first_occurrences_snoc key c :
  first_occurrences (key ++ [c])
  = if bool_decide (c ∈ key) then first_occurrences key else first_occurrences key ++ [c].
Proof.
  unfold first_occurrences. rewrite length_app. simpl length.
  rewrite seq_app, omap_app. simpl seq. simpl omap.
  rewrite list_lookup_middle by done. rewrite take_app_length.
  assert (omap
    (fun i => match (key ++ [c]) !! i with
              | Some c0 => if bool_decide (c0 ∈ take i (key ++ [c])) then None else Some c0
              | None => None
              end) (seq 0 (length key))
    = omap
    (fun i => match key !! i with
              | Some c0 => if bool_decide (c0 ∈ take i key) then None else Some c0
              | None => None
              end) (seq 0 (length key))) as ->.
  { apply list_omap_ext.
    apply Forall2_same_length_lookup. split; [done|].
    intros i x y Hx Hy. rewrite Hx in Hy. injection Hy as <-.
    apply lookup_seq in Hx as [-> Hi]. simpl.
    rewrite lookup_app_l by done. rewrite take_app_le by lia. done. }
  case_bool_decide; [by rewrite app_nil_r|done].
Qed.

Lemma cleanKey_first_occurrences key : cleanKey key = first_occurrences key.
Proof.
  induction key as [|d key IH] using rev_ind; [done|].
  by rewrite cleanKey_snoc, first_occurrences_snoc, IH.
Qed.
End sets.

(** ** Code points and duplicate detection *)

Section code_points.
Implicit Types (x : list N) (s rest : list N) (h c : N) (cps : list (list N)).

Lemma code_points_ind (P : list N -> list (list N) -> Prop) :
  P [] [] ->
  (forall h, P [h] [[h]]) ->
  (forall h c rest,
      is_high_surrogate h && is_low_surrogate c = true ->
      P rest (code_points rest) ->
      P (h :: c :: rest) ([h; c] :: code_points rest)) ->
  (forall h c rest,
      is_high_surrogate h && is_low_surrogate c = false ->
      P (c :: rest) (code_points (c :: rest)) ->
      P (h :: c :: rest) ([h] :: code_points (c :: rest))) ->
  forall s, P s (code_points s).
Proof.
  intros Hnil Hone Hpair Hsingle s.
  cut (P s (code_points s) /\ forall h, P (h :: s) (code_points (h :: s))); [tauto|].
  induction s as [|c s [IHs IHcs]]; [by split|].
  split; [apply IHcs|]. intros h.
  change (code_points (h :: c :: s))
    with (if is_high_surrogate h && is_low_surrogate c
          then [h; c] :: code_points s else [h] :: code_points (c :: s)).
  destruct (is_high_surrogate h && is_low_surrogate c) eqn:Hsur.
  - by apply Hpair.
  - apply Hsingle; [done|]. apply IHcs.
Qed.

Lemma concat_code_points s : concat (code_points s) = s.
Proof.
  apply (code_points_ind (fun s cps => concat cps = s)); try done.
  - intros h c rest _ IH. simpl. by rewrite IH.
  - intros h c rest _ IH. simpl in *. by rewrite IH.
Qed.

Lemma code_points_nonempty s : Forall (fun x => x <> []) (code_points s).
Proof.
  apply (code_points_ind (fun _ cps => Forall (fun x => x <> []) cps)).
  - constructor.
  - intros h. by repeat constructor.
  - intros h c rest _ IH. by constructor.
  - intros h c rest _ IH. by constructor.
Qed.

Lemma NoDup_concat_nonempty cps :
  Forall (fun x => x <> []) cps -> NoDup (concat cps) -> NoDup cps.
Proof.
  induction cps as [|x cps IH]; intros Hne Hnd; [constructor|].
  apply Forall_cons in Hne as [Hx Hne]. simpl in Hnd.
  apply NoDup_app in Hnd as (_ & Hdisj & Hnd).
  constructor; [|by apply IH].
  intros Hin. destruct x as [|c x]; [done|].
  apply (Hdisj c); [by left|].
  apply list_elem_of_In, in_concat. exists (c :: x).
  split; [by apply list_elem_of_In|by left].
Qed.

Lemma NoDup_code_points s : NoDup s -> NoDup (code_points s).
Proof.
  intros Hnd. apply NoDup_concat_nonempty.
  - apply code_points_nonempty.
  - by rewrite concat_code_points.
Qed.

Lemma getDuplicateChars_loop_NoDup cps : forall seen duplicates,
  NoDup cps -> (forall x, x ∈ cps -> x ∉ seen) ->
  snd (fold_left getDuplicateChars_step cps (seen, duplicates)) = duplicates.
Proof.
  induction cps as [|x cps IH]; intros seen duplicates Hnd Hfresh; [done|].
  apply NoDup_cons in Hnd as [Hx Hnd]. simpl.
  rewrite (proj2 (set_has_false seen x)) by (apply Hfresh; by left).
  apply IH; [done|]. intros y Hy Hin.
  apply elem_of_set_add in Hin as [Hin| ->].
  - apply (Hfresh y); [by right|done].
  - done.
Qed.

Lemma getDuplicateChars_NoDup s : NoDup s -> getDuplicateChars s = [].
Proof.
  intros Hnd. unfold getDuplicateChars.
  apply getDuplicateChars_loop_NoDup; [by apply NoDup_code_points|].
  intros x _ Hin. by apply elem_of_nil in Hin.
Qed.
End code_points.

(** ** Splitting *)

Section splitting.
Implicit Types (s t g sep rest : list N) (parts ts : list (list N)) (c : N).

Lemma join_cons sep t parts :
  parts <> [] -> join sep (t :: parts) = t ++ sep ++ join sep parts.
Proof. by destruct parts. Qed.

(** *** White space runs *)

Lemma ws_run_all g rest :
  all_ws g = true -> ws_run (g ++ rest) = (length g + ws_run rest)%nat.
Proof.
  induction g as [|c g IH]; intros Hg; [done|].
  apply andb_prop in Hg as [Hc Hg]. simpl. rewrite Hc. f_equal. by apply IH.
Qed.

Lemma find_ws_token t rest :
  no_ws t = true ->
  find_ws (t ++ rest)
  = (fun '(q, e) => ((length t + q)%nat, (length t + e)%nat)) <$> find_ws rest.
Proof.
  induction t as [|c t IH]; intros Ht.
  - simpl. destruct (find_ws rest) as [[q e]|]; done.
  - apply andb_prop in Ht as [Hc Ht]. simpl.
    apply negb_true_iff in Hc. rewrite Hc, (IH Ht).
    destruct (find_ws rest) as [[q e]|]; done.
Qed.

Lemma find_ws_none t : no_ws t = true -> find_ws t = None.
Proof.
  intros Ht. rewrite <- (app_nil_r t), find_ws_token by done. done.
Qed.

Lemma find_ws_gap g rest :
  g <> [] -> all_ws g = true ->
  find_ws (g ++ rest) = Some (0%nat, (length g + ws_run rest)%nat).
Proof.
  destruct g as [|c g]; [done|]. intros _ Hg.
  apply andb_prop in Hg as [Hc Hg]. simpl. rewrite Hc.
  by rewrite ws_run_all.
Qed.

Lemma ws_run_layout items : spaced items -> ws_run (layout items) = 0%nat.
Proof.
  destruct items as [|[t g] items]; [done|].
  intros (Hne & Ht & _). destruct t as [|c t]; [done|].
  apply andb_prop in Ht as [Hc _]. apply negb_true_iff in Hc.
  simpl. by rewrite Hc.
Qed.

Lemma split_loop_nil find fuel :
  find [] = None -> split_loop find fuel [] = [[]].
Proof. intros H. destruct fuel; simpl; [done|]. by rewrite H. Qed.

(** Tokens separated by runs of white space are recovered, whatever the
    lengths of the runs. *)
Lemma split_ws_layout items : forall fuel,
  spaced items -> (length (layout items) <= fuel)%nat ->
  filter (fun p => nonempty p = true) (split_loop find_ws fuel (layout items))
  = items.*1.
Proof.
  induction items as [|[t g] items IH]; intros fuel Hsp Hfuel.
  - simpl layout. by rewrite split_loop_nil.
  - destruct Hsp as (Hne & Ht & Hg & Hlast & Hsp).
    simpl layout in *. rewrite !length_app in Hfuel.
    assert (nonempty t = true) as Hnet by (by destruct t).
    destruct (decide (g = [])) as [->|Hgne].
    + assert (items = []) as ->.
      { destruct items; [done|]. by destruct Hlast. }
      simpl. rewrite app_nil_r.
      destruct fuel as [|fuel]; simpl.
      * rewrite filter_cons_True by done. done.
      * rewrite find_ws_none by done. rewrite filter_cons_True by done. done.
    + assert (0 < length t)%nat by (destruct t; simpl; [done|lia]).
      destruct fuel as [|fuel]; [lia|].
      simpl split_loop. rewrite find_ws_token by done.
      rewrite find_ws_gap by done. rewrite (ws_run_layout _ Hsp).
      simpl fmap. rewrite !Nat.add_0_r.
      rewrite take_app_length. rewrite filter_cons_True by done.
      rewrite drop_app_add', drop_app_length by done.
      simpl fmap. f_equal. apply IH; [done|]. lia.
Qed.

(** *** Literal separators *)

Lemma starts_with_app sep rest : starts_with sep (sep ++ rest) = true.
Proof. induction sep as [|c sep IH]; [done|]. simpl. by rewrite N.eqb_refl. Qed.



Lemma indexOf_nil sep : sep <> [] -> indexOf sep [] = None.
Proof. by destruct sep. Qed.

Lemma indexOf_token c sep t rest :
  head sep = Some c -> c ∉ t ->
  indexOf sep (t ++ rest) = (fun q => (length t + q)%nat) <$> indexOf sep rest.
Proof.
  destruct sep as [|c' sep]; [done|]. intros [= ->].
  induction t as [|d t IH]; intros Hc.
  - simpl app. by destruct (indexOf (c :: sep) rest).
  - apply not_elem_of_cons in Hc as [Hcd Hc].
    change (indexOf (c :: sep) ((d :: t) ++ rest))
      with (if (c =? d) && starts_with sep (t ++ rest) then Some 0%nat
            else S <$> indexOf (c :: sep) (t ++ rest)).
    rewrite (proj2 (N.eqb_neq c d)) by done. simpl andb. cbv iota.
    rewrite (IH Hc). by destruct (indexOf (c :: sep) rest).
Qed.

Lemma indexOf_app sep rest : indexOf sep (sep ++ rest) = Some 0%nat.
Proof.
  destruct sep as [|c sep]; [by destruct rest|].
  pose proof (starts_with_app (c :: sep) rest) as H.
  simpl in *. by rewrite H.
Qed.

Lemma indexOf_absent c sep t :
  head sep = Some c -> c ∉ t -> indexOf sep t = None.
Proof.
  intros Hsep Hc. rewrite <- (app_nil_r t), (indexOf_token c) by done.
  rewrite indexOf_nil; [done|]. by destruct sep.
Qed.

(** Tokens free of the first character of the separator are recovered
    from their join. *)
Lemma split_literal_join c sep ts : forall fuel,
  head sep = Some c -> ts <> [] -> Forall (fun t => c ∉ t) ts ->
  (length (join sep ts) <= fuel)%nat ->
  split_loop (find_literal sep) fuel (join sep ts) = ts.
Proof.
  induction ts as [|t ts IH]; intros fuel Hsep Hne Hts Hfuel; [done|].
  apply Forall_cons in Hts as [Ht Hts].
  assert (0 < length sep)%nat by (destruct sep; simpl; [done|lia]).
  destruct (decide (ts = [])) as [->|Hne'].
  - simpl join. destruct fuel; simpl; [done|].
    unfold find_literal. by rewrite (indexOf_absent c).
  - rewrite join_cons in * by done. rewrite !length_app in Hfuel.
    destruct fuel as [|fuel]; [lia|].
    simpl split_loop. unfold find_literal at 1.
    rewrite (indexOf_token c), indexOf_app by done. simpl fmap.
    rewrite Nat.add_0_r, take_app_length.
    rewrite drop_app_add', drop_app_length by done.
    f_equal. apply IH; [done|done|done|lia].
Qed.




(** *** Empty parts are skipped *)

Lemma decode_parts_filter key parts : forall st,
  fold_left (decode_part_step key) parts st
  = fold_left (decode_part_step key) (filter (fun p => nonempty p = true) parts) st.
Proof.
  induction parts as [|p parts IH]; intros st; [done|].
  destruct p as [|c p].
  - rewrite filter_cons_False by done. simpl. destruct st. apply IH.
  - rewrite filter_cons_True by done. simpl. apply IH.
Qed.
End splitting.

(** ** The loops of the codec *)

Section codec.
Implicit Types (key s t tok input : list N) (c : N) (keyMap : gmap N Z)
  (res : list (list N)) (flag : bool) (z : Z).

Lemma trim_single c : trim [c] = if is_ws c then [] else [c].
Proof.
  unfold trim. simpl drop_ws. destruct (is_ws c) eqn:Hc; [done|].
  change (reverse [c]) with [c]. simpl. by rewrite Hc.
Qed.

Lemma visible_single c : negb (falsy (trim [c])) = negb (is_ws c).
Proof. rewrite trim_single. by destruct (is_ws c). Qed.

Lemma parseInt_toString z : parseInt (toString z) = Some z.
Proof.
  unfold toString.
  destruct (Z.ltb_spec z 0) as [Hneg|Hpos].
  - destruct (digits_read (Z.to_N (- z))) as (Hne & Hall & Hread).
    specialize (Hread []). rewrite app_nil_r in Hread.
    unfold parseInt. simpl drop_ws. change (is_ws 45) with false. cbv iota.
    rewrite Hread. simpl. f_equal. lia.
  - destruct (digits_read (Z.to_N z)) as (Hne & Hall & Hread).
    specialize (Hread []). rewrite app_nil_r in Hread.
    unfold parseInt. destruct (digits (Z.to_N z)) as [|d ds] eqn:Hd; [done|].
    simpl in Hall. apply andb_prop in Hall as [Hdig _].
    simpl drop_ws. rewrite (is_digit_not_ws _ Hdig).
    assert (d <> 45 /\ d <> 43) as [H45 H43] by (unfold is_digit in Hdig; lia).
    assert (match d :: ds with
            | 45 :: r => (true, r)
            | 43 :: r => (false, r)
            | _ => (false, d :: ds)
            end = (false, d :: ds)) as ->.
    { destruct d as [|p]; [done|].
      repeat (destruct p as [p|p|]; try done). }
    rewrite Hread. simpl. f_equal. lia.
Qed.

Lemma lookup_index_in_range key z :
  in_range key z = true ->
  exists k, lookup_index key z = Some k /\ char_at key (z - 1) = [k].
Proof.
  unfold in_range, lookup_index, char_at. intros Hr.
  assert (1 <= z <= Z.of_nat (length key))%Z as Hz by lia.
  destruct (lookup_lt_is_Some_2 key (Z.to_nat (z - 1))) as [k Hk]; [lia|].
  exists k. rewrite Hk.
  rewrite (proj2 (Z.ltb_ge (z - 1) 0)) by lia.
  split; [|done].
  by rewrite (proj2 (Z.leb_le 1 z)), (proj2 (Z.leb_le z _)) by lia.
Qed.

Lemma lookup_index_out_of_range key z :
  in_range key z = false -> lookup_index key z = None.
Proof.
  unfold in_range, lookup_index. intros Hr.
  destruct ((1 <=? z)%Z && (z <=? Z.of_nat (length key))%Z) eqn:E; [lia|done].
Qed.

Lemma lookup_index_Some key z k :
  lookup_index key z = Some k <->
  (1 <= z <= Z.of_nat (length key))%Z /\ key !! Z.to_nat (z - 1) = Some k.
Proof.
  unfold lookup_index.
  destruct ((1 <=? z)%Z && (z <=? Z.of_nat (length key))%Z) eqn:E.
  - split; [intros H; split; [lia|done]|by intros [_ H]].
  - split; [done|]. intros [H _]. lia.
Qed.

(** *** The loop of the encoder *)

Lemma encode_step_eq keyMap res flag c :
  encode_step keyMap (res, flag) c
  = (res ++ [encode_token keyMap c], flag || unmapped_visible keyMap c).
Proof.
  unfold encode_step, encode_token, unmapped_visible.
  destruct (keyMap !! c) as [index|] eqn:Hc.
  - simpl. by rewrite orb_false_r.
  - rewrite visible_single. simpl. by destruct (is_ws c), flag.
Qed.

Lemma encode_loop keyMap input : forall res flag,
  fold_left (encode_step keyMap) input (res, flag)
  = (res ++ (encode_token keyMap <$> input),
     flag || existsb (unmapped_visible keyMap) input).
Proof.
  induction input as [|c input IH]; intros res flag.
  - simpl. by rewrite app_nil_r, orb_false_r.
  - cbn [fold_left]. rewrite encode_step_eq, IH, <- app_assoc, <- orb_assoc. done.
Qed.

(** *** The loops of the decoder *)

Lemma parseInt_digit c : is_digit c = true -> parseInt [c] = Some (Z.of_N c - 48)%Z.
Proof.
  intros Hc. unfold parseInt. simpl drop_ws. rewrite (is_digit_not_ws _ Hc).
  assert (c <> 45 /\ c <> 43) as [H45 H43] by (unfold is_digit in Hc; lia).
  assert (match [c] with
          | 45 :: r => (true, r)
          | 43 :: r => (false, r)
          | _ => (false, [c])
          end = (false, [c])) as ->.
  { destruct c as [|p]; [done|]. repeat (destruct p as [p|p|]; try done). }
  simpl. rewrite Hc. f_equal. unfold is_digit in Hc. lia.
Qed.

Lemma decode_char_step_eq key res flag c :
  decode_char_step key (res, flag) c
  = (res ++ [(continuous_outcome key c).1], flag || (continuous_outcome key c).2).
Proof.
  unfold decode_char_step, continuous_outcome.
  change ((48 <=? c) && (c <=? 57)) with (is_digit c).
  destruct (is_digit c) eqn:Hc.
  - rewrite parseInt_digit by done.
    destruct (in_range key (Z.of_N c - 48)) eqn:Hr.
    + destruct (lookup_index_in_range _ _ Hr) as (k & -> & ->).
      simpl. by rewrite orb_false_r.
    + rewrite (lookup_index_out_of_range _ _ Hr). simpl. by rewrite orb_true_r.
  - rewrite visible_single. simpl. by destruct (is_ws c), flag.
Qed.

Lemma decode_char_loop key s : forall res flag,
  fold_left (decode_char_step key) s (res, flag)
  = (res ++ ((fun c => (continuous_outcome key c).1) <$> s),
     flag || existsb (fun c => (continuous_outcome key c).2) s).
Proof.
  induction s as [|c s IH]; intros res flag.
  - simpl. by rewrite app_nil_r, orb_false_r.
  - cbn [fold_left]. rewrite decode_char_step_eq, IH, <- app_assoc, <- orb_assoc. done.
Qed.

Lemma decode_part_step_eq key res flag t :
  t <> [] ->
  decode_part_step key (res, flag) t
  = (res ++ [(token_outcome key t).1], flag || (token_outcome key t).2).
Proof.
  intros Ht. unfold decode_part_step, token_outcome.
  destruct t as [|c t]; [done|]. simpl falsy. cbv iota.
  destruct (parseInt (c :: t)) as [index|].
  - destruct (in_range key index) eqn:Hr.
    + destruct (lookup_index_in_range _ _ Hr) as (k & -> & ->).
      simpl. by rewrite orb_false_r.
    + rewrite (lookup_index_out_of_range _ _ Hr). simpl. by rewrite orb_true_r.
  - simpl. by rewrite orb_true_r.
Qed.

Lemma decode_part_loop key (toks : list (list N)) : forall res flag,
  Forall (fun t => t <> []) toks ->
  fold_left (decode_part_step key) toks (res, flag)
  = (res ++ ((fun t => (token_outcome key t).1) <$> toks),
     flag || existsb (fun t => (token_outcome key t).2) toks).
Proof.
  induction toks as [|t toks IH]; intros res flag Hne.
  - simpl. by rewrite app_nil_r, orb_false_r.
  - apply Forall_cons in Hne as [Ht Hne].
    cbn [fold_left]. rewrite decode_part_step_eq by done.
    rewrite IH, <- app_assoc, <- orb_assoc by done. done.
Qed.

Lemma filter_nonempty (parts : list (list N)) :
  Forall (fun t => t <> []) (filter (fun p => nonempty p = true) parts).
Proof.
  apply Forall_forall. intros t Ht. apply list_elem_of_filter in Ht as [Ht _].
  by destruct t.
Qed.
End codec.

(** ** Separator mode and the round trip *)

Section decoding.
Implicit Types (key encoded sep s t g : list N) (ts toks : list (list N)) (c : N).

Lemma decodeString_separator key encoded sep :
  key <> [] -> encoded <> [] -> sep <> [] ->
  decodeString encoded key sep
  = decode_with (token_outcome key)
      (filter (fun p => nonempty p = true) (decoder_parts encoded sep)).
Proof.
  intros Hkey Henc Hsep. unfold decodeString, decode_with.
  destruct encoded as [|c encoded]; [done|]. destruct key as [|k key]; [done|].
  destruct sep as [|d sep]; [done|]. cbn [falsy orb].
  rewrite decode_parts_filter, decode_part_loop by apply filter_nonempty.
  by rewrite join_nil.
Qed.

Lemma gapped_cons g t ts :
  ts <> [] -> gapped g (t :: ts) = (t, g) :: gapped g ts.
Proof. by destruct ts. Qed.

Lemma layout_gapped g ts : layout (gapped g ts) = join g ts.
Proof.
  induction ts as [|t ts IH]; [done|].
  destruct (decide (ts = [])) as [->|Hne].
  - simpl. by rewrite app_nil_r.
  - rewrite gapped_cons, join_cons by done. simpl. by rewrite IH.
Qed.

Lemma fst_gapped g ts : (gapped g ts).*1 = ts.
Proof.
  induction ts as [|t ts IH]; [done|].
  destruct (decide (ts = [])) as [->|Hne]; [done|].
  rewrite gapped_cons by done. by rewrite fmap_cons, IH.
Qed.

Lemma spaced_gapped g ts :
  g <> [] -> all_ws g = true ->
  Forall (fun t => t <> [] /\ no_ws t = true) ts ->
  spaced (gapped g ts).
Proof.
  intros Hg Hws. induction ts as [|t ts IH]; intros Hts; [done|].
  apply Forall_cons in Hts as [[Hne Ht] Hts].
  destruct (decide (ts = [])) as [->|Hne'].
  - simpl. by split_and!.
  - rewrite gapped_cons by done. simpl. split_and!; try done. by apply IH.
Qed.

Lemma digits_no_ws t : forallb is_digit t = true -> no_ws t = true.
Proof.
  unfold no_ws. rewrite !forallb_forall. intros H c Hc.
  apply negb_true_iff, is_digit_not_ws, H, Hc.
Qed.

(** The token of a character of the key decodes to that character. *)
Lemma token_roundtrip key c :
  c ∈ key ->
  let t := encode_token (generateKeyMap key) c in
  t <> [] /\ forallb is_digit t = true /\ token_outcome key t = ([c], false).
Proof.
  intros Hin. destruct (first_occurrence key c Hin) as (j & Hj & Hfirst).
  unfold encode_token, generateKeyMap.
  rewrite (generateKeyMap_loop_first key 0 ∅ c j) by done. simpl Nat.add.
  cbv zeta. unfold toString at 1 2.
  rewrite (proj2 (Z.ltb_ge (Z.of_nat j + 1) 0)) by lia.
  destruct (digits_read (Z.to_N (Z.of_nat j + 1))) as (Hne & Hall & _).
  split_and!; [done|done|].
  unfold token_outcome. rewrite parseInt_toString.
  assert (lookup_index key (Z.of_nat j + 1) = Some c) as ->; [|done].
  apply lookup_index_Some. split.
  - apply lookup_lt_Some in Hj. lia.
  - replace (Z.to_nat (Z.of_nat j + 1 - 1)) with j by lia. done.
Qed.

Lemma decode_with_tokens key input :
  (forall c, c ∈ input -> c ∈ key) ->
  decode_with (token_outcome key) (encode_token (generateKeyMap key) <$> input)
  = Dec.mk input false.
Proof.
  intros Hin. unfold decode_with.
  induction input as [|c input IH]; [done|].
  destruct (token_roundtrip key c) as (_ & _ & Hc); [apply Hin; by left|].
  assert (forall d, d ∈ input -> d ∈ key) as Hin' by (intros d Hd; apply Hin; by right).
  specialize (IH Hin'). injection IH as Hres Hflag.
  rewrite !fmap_cons. cbn [concat existsb]. rewrite Hc, Hres, Hflag. done.
Qed.

Lemma encodeString_tokens input keyMap sep :
  (forall c, c ∈ input -> is_Some (keyMap !! c)) ->
  encodeString input keyMap sep
  = Enc.mk (join sep (encode_token keyMap <$> input)) false.
Proof.
  intros Hin. unfold encodeString.
  destruct (decide (input = [])) as [->|Hne]; [done|].
  replace (falsy input) with false by (by destruct input).
  rewrite encode_loop. simpl. f_equal.
  apply not_true_is_false. intros Hex. apply existsb_exists in Hex as (c & Hc & Hun).
  unfold unmapped_visible in Hun. apply andb_prop in Hun as [Hnone _].
  apply bool_decide_eq_true in Hnone.
  destruct (Hin c) as [v Hv]; [by apply list_elem_of_In|]. congruence.
Qed.

Lemma filter_nonempty_id ts :
  Forall (fun t => t <> []) ts -> filter (fun p => nonempty p = true) ts = ts.
Proof.
  induction ts as [|t ts IH]; intros Hts; [done|].
  apply Forall_cons in Hts as [Ht Hts].
  rewrite filter_cons_True by (by destruct t). by rewrite IH.
Qed.

(** Splitting the joined tokens gives the tokens back. *)
Lemma decoder_parts_join sep ts :
  sep <> [] -> (forall c, c ∈ sep -> is_digit c = false) ->
  Forall (fun t => t <> [] /\ forallb is_digit t = true) ts ->
  filter (fun p => nonempty p = true) (decoder_parts (join sep ts) sep) = ts.
Proof.
  intros Hsep Hnd Hts.
  destruct (decide (ts = [])) as [->|Hne].
  { unfold decoder_parts. simpl join. case_bool_decide; [done|].
    unfold split_literal. simpl. done. }
  unfold decoder_parts. case_bool_decide as Hsp.
  - subst sep. unfold split_ws. rewrite <- layout_gapped.
    rewrite split_ws_layout; [apply fst_gapped| |done].
    apply spaced_gapped; [done|done|].
    eapply Forall_impl; [exact Hts|]. intros t [? ?]. split; [done|].
    by apply digits_no_ws.
  - destruct (head sep) as [c0|] eqn:Hhead; [|by destruct sep].
    assert (is_digit c0 = false) as Hc0.
    { apply Hnd. destruct sep; simplify_eq/=. by left. }
    unfold split_literal. rewrite (split_literal_join c0); [|done|done| |done].
    + apply filter_nonempty_id. eapply Forall_impl; [exact Hts|]. by intros t [? ?].
    + eapply Forall_impl; [exact Hts|]. intros t [_ Ht] Hin.
      rewrite forallb_forall in Ht. apply list_elem_of_In, Ht in Hin. congruence.
Qed.

Lemma join_nonempty sep t ts : t <> [] -> join sep (t :: ts) <> [].
Proof. destruct t; [done|]. by destruct ts. Qed.
End decoding.

(** * The key: map, cleaning and duplicates *)

(** Claim C5.  [generateKeyMap] gives every character of the key the 1-based
    position of its first occurrence: when [c] occurs in [K] first at the
    0-based position [i], the map sends [c] to [i + 1], and no character that
    comes later, be it another occurrence of [c], changes that value. *)
Theorem generateKeyMap_first_occurrence (K K' : jsstring) (c : unit16) (i : nat) :
  K !! i = Some c ->
  (forall j, (j < i)%nat -> K !! j <> Some c) ->
  generateKeyMap K !! c = Some (Z.of_nat i + 1)%Z /\
  generateKeyMap (K ++ K') !! c = Some (Z.of_nat i + 1)%Z.
Proof.
  intros Hi Hfirst. unfold generateKeyMap. split.
  - by apply (generateKeyMap_loop_first K 0 ∅ c i).
  - apply (generateKeyMap_loop_first (K ++ K') 0 ∅ c i); [done| |].
    + rewrite lookup_app_l; [done|]. by apply lookup_lt_Some in Hi.
    + intros j Hj. rewrite lookup_app_l; [by apply Hfirst|].
      apply lookup_lt_Some in Hi. lia.
Qed.

(** Scenario E: in the key AAB the character B is mapped to 3, not to 2. *)
Lemma generateKeyMap_AAB :
  u "AAB" !! 2%nat = Some 66 /\
  (forall j, (j < 2)%nat -> u "AAB" !! j <> Some 66) /\
  generateKeyMap (u "AAB") !! 66 = Some 3%Z /\
  generateKeyMap (u "AAB" ++ u "B") !! 66 = Some 3%Z.
Proof.
  assert (forall j, (j < 2)%nat -> u "AAB" !! j <> Some 66) as Hfirst.
  { intros [|[|j]] Hj; [done|done|lia]. }
  split; [reflexivity|]. split; [exact Hfirst|].
  exact (generateKeyMap_first_occurrence (u "AAB") (u "B") 66 2 eq_refl Hfirst).
Defined.

Example generateKeyMap_AAB_A : generateKeyMap (u "AAB") !! 65 = Some 1%Z.
Proof. reflexivity. Qed.

(** Claim C6.  [cleanKey] keeps the first occurrence of every character in
    the original order, cleaning twice is cleaning once, and a cleaned key
    has no duplicate characters. *)
Theorem cleanKey_idempotent (K : jsstring) :
  cleanKey K = first_occurrences K /\
  cleanKey (cleanKey K) = cleanKey K /\
  getDuplicateChars (cleanKey K) = [].
Proof.
  split_and!.
  - apply cleanKey_first_occurrences.
  - apply cleanKey_NoDup, NoDup_cleanKey.
  - apply getDuplicateChars_NoDup, NoDup_cleanKey.
Qed.

Example cleanKey_AAB :
  cleanKey (u "AAB") = u "AB" /\ getDuplicateChars (u "AAB") = [u "A"].
Proof. split; reflexivity. Qed.

(** Claim C10.  The preset key has no duplicate characters: duplicate
    detection finds nothing in it and cleaning leaves it as it is. *)
Theorem PRESET_BASE64_has_no_duplicates :
  getDuplicateChars PRESET_BASE64 = [] /\
  cleanKey PRESET_BASE64 = PRESET_BASE64 /\
  NoDup PRESET_BASE64.
Proof.
  split_and!.
  - vm_compute. reflexivity.
  - vm_compute. reflexivity.
  - apply (bool_decide_unpack _). vm_compute. exact I.
Qed.

(** ** The code against independent references *)

Section references.
Implicit Types (c : N) (s sep : list N) (toks : list (list N)) (n : N).

Lemma is_ws_units c : is_ws c = true <-> c ∈ whitespace_units.
Proof.
  split.
  - intros Hc. apply list_elem_of_In. unfold whitespace_units. cbn [In].
    unfold is_ws in Hc. lia.
  - revert c. apply Forall_forall. by repeat constructor.
Qed.

Lemma is_ws_units_false c : is_ws c = false <-> c ∉ whitespace_units.
Proof. rewrite <- is_ws_units. by destruct (is_ws c). Qed.

Lemma join_separated sep toks : join sep toks = separated sep toks.
Proof.
  destruct toks as [|t toks]; [done|]. unfold separated.
  revert t. induction toks as [|q toks IH]; intros t.
  - simpl. by rewrite app_nil_r.
  - rewrite join_cons by done. rewrite IH, fmap_cons. cbn [concat].
    by rewrite <- !app_assoc.
Qed.

Lemma read_digits_value s : forall a,
  forallb is_digit s = true ->
  read_digits (Some a) s = Some (fold_left (fun a d => 10 * a + (d - 48)) s a).
Proof.
  induction s as [|d s IH]; intros a Hs; [done|].
  apply andb_prop in Hs as [Hd Hs]. rewrite read_digits_step by done.
  cbn [default fold_left]. by apply IH.
Qed.

Lemma digits_loop_head fuel : forall n tail,
  n < 2 ^ (N.of_nat fuel + 1) -> n <> 0 ->
  head (digits_loop fuel n tail) <> Some 48.
Proof.
  assert (Hone : forall n tail, n < 10 -> n <> 0 ->
            head ((48 + n mod 10) :: tail) <> Some 48).
  { intros n tail Hn Hz. rewrite (N.mod_small n 10) by done. cbn [head].
    intros H. assert (48 + n = 48) as H' by congruence. lia. }
  induction fuel as [|fuel IH]; intros n tail Hn Hz.
  - cbn [digits_loop]. apply Hone; [|done]. simpl in Hn. lia.
  - simpl digits_loop. destruct (N.eqb_spec (n / 10) 0) as [Hq|Hq].
    + apply Hone; [|done]. apply N.div_small_iff in Hq; lia.
    + apply IH; [|done].
      replace (N.of_nat (S fuel) + 1) with (N.succ (N.of_nat fuel + 1)) in Hn by lia.
      rewrite N.pow_succ_r' in Hn.
      assert (n / 10 <= n / 2) by (apply N.div_le_compat_l; lia).
      assert (n / 2 < 2 ^ (N.of_nat fuel + 1)) by (apply N.Div0.div_lt_upper_bound; lia).
      lia.
Qed.

(** What pins the decimal string of a natural number down: digits only, at
    least one, the value they denote, and no leading zero. *)
Lemma digits_decimal n :
  digits n <> [] /\ forallb is_digit (digits n) = true /\
  decimal_value (digits n) = n /\
  (head (digits n) = Some 48 -> n = 0).
Proof.
  destruct (digits_read n) as (Hne & Hall & Hread). split_and!; [done|done| |].
  - specialize (Hread []). rewrite app_nil_r in Hread. simpl in Hread.
    destruct (digits n) as [|d ds] eqn:Hd; [done|].
    apply andb_prop in Hall as [Hdig Hall].
    rewrite read_digits_step in Hread by done. cbn [default] in Hread.
    rewrite read_digits_value in Hread by done. injection Hread as Hread.
    unfold decimal_value. cbn [fold_left]. done.
  - intros Hhead. destruct (N.eq_dec n 0) as [|Hnz]; [done|]. exfalso.
    revert Hhead. unfold digits. apply digits_loop_head; [|done].
    rewrite N2Nat.id, N.add_1_r. apply N.log2_spec. lia.
Qed.

Lemma toString_decimal (z : Z) :
  (0 <= z)%Z ->
  toString z <> [] /\ forallb is_digit (toString z) = true /\
  decimal_value (toString z) = Z.to_N z /\
  (head (toString z) = Some 48 -> z = 0%Z).
Proof.
  intros Hz. unfold toString. rewrite (proj2 (Z.ltb_ge z 0)) by lia.
  destruct (digits_decimal (Z.to_N z)) as (H1 & H2 & H3 & H4).
  split_and!; [done|done|done|]. intros H. apply H4 in H. lia.
Qed.

Lemma toString_negative (z : Z) :
  (z < 0)%Z -> toString z = 45 :: toString (- z).
Proof.
  intros Hz. unfold toString.
  rewrite (proj2 (Z.ltb_lt z 0)) by lia. by rewrite (proj2 (Z.ltb_ge (- z) 0)) by lia.
Qed.
End references.

Section references_more.
Implicit Types (c : N) (s sep : list N) (toks : list (list N)) (n : N) (z : Z).

Lemma digits_is_decimal n : is_decimal_of n (digits n).
Proof.
  destruct (digits_decimal n) as (Hne & Hall & Hval & Hhead).
  split_and!; [done| |done|].
  - apply Forall_forall. intros d Hd. rewrite forallb_forall in Hall.
    apply list_elem_of_In, Hall in Hd. unfold is_digit in Hd. lia.
  - intros H. by rewrite (Hhead H).
Qed.

Lemma toString_is_number_string z : is_number_string z (toString z).
Proof.
  unfold is_number_string, toString. destruct (decide (0 <= z)%Z) as [Hz|Hz].
  - rewrite (proj2 (Z.ltb_ge z 0)) by lia. apply digits_is_decimal.
  - rewrite (proj2 (Z.ltb_lt z 0)) by lia. eexists. split; [done|].
    apply digits_is_decimal.
Qed.

Lemma strip_ws_without_white_space s : strip_ws s = without_white_space s.
Proof.
  unfold strip_ws, without_white_space. induction s as [|c s IH]; [done|].
  simpl List.filter. destruct (is_ws c) eqn:Hc.
  - rewrite filter_cons_False; [done|]. intros Hn. by apply Hn, is_ws_units.
  - rewrite filter_cons_True by (by apply is_ws_units_false). simpl. by rewrite IH.
Qed.
End references_more.

(** * Base64 hygiene *)

Section base64.
Implicit Types (c : N) (s : list N).

Lemma base64_class_alphabet c : base64_class c = true <-> c ∈ base64_alphabet.
Proof.
  split.
  - intros Hc.
    assert (forallb (fun n => implb (base64_class n) (bool_decide (n ∈ base64_alphabet)))
              (N.of_nat <$> seq 0 123) = true) as Hall by (vm_compute; reflexivity).
    rewrite forallb_forall in Hall.
    assert (c < 123) as Hlt by (unfold base64_class in Hc; lia).
    assert (In c (N.of_nat <$> seq 0 123)) as Hin.
    { apply list_elem_of_In, list_elem_of_fmap. exists (N.to_nat c).
      split; [lia|]. apply elem_of_seq. lia. }
    apply Hall in Hin. rewrite Hc in Hin.
    cbn [implb] in Hin. by apply bool_decide_eq_true in Hin.
  - assert (Forall (fun n => base64_class n = true) base64_alphabet) as Hall.
    { by repeat constructor. }
    rewrite Forall_forall in Hall. apply Hall.
Qed.

Lemma test_base64_regex_spec s :
  test_base64_regex s = true <-> s <> [] /\ Forall (fun c => c ∈ base64_alphabet) s.
Proof.
  assert (forallb base64_class s = true <-> Forall (fun c => c ∈ base64_alphabet) s) as Hall.
  { rewrite forallb_forall, Forall_forall. split; intros H c Hc.
    - apply base64_class_alphabet, H. by apply list_elem_of_In.
    - apply base64_class_alphabet, H. by apply list_elem_of_In. }
  destruct s as [|c s]; [simpl; split; [done|by intros [? _]]|].
  change (test_base64_regex (c :: s)) with (forallb base64_class (c :: s)).
  rewrite Hall. split; [by split|by intros [_ ?]].
Qed.
End base64.

(** Claim C9.  [isValidBase64] answers [true] exactly for the empty string
    and for the strings whose characters, once all white space is removed,
    all belong to the alphabet A-Z, a-z, 0-9, [+], [/], [=]; it answers
    [false] for every other string. *)
Theorem isValidBase64_spec (str : jsstring) :
  isValidBase64 str = true <->
  str = [] \/ Forall (fun c => c ∈ base64_alphabet) (without_white_space str).
Proof.
  rewrite <- strip_ws_without_white_space.
  unfold isValidBase64. destruct str as [|c str]; [simpl; split; [by left|done]|].
  cbn [falsy]. cbv zeta.
  destruct (strip_ws (c :: str)) as [|d clean] eqn:Hclean.
  - simpl. split; [intros _; right; constructor|done].
  - cbn [length Nat.eqb]. rewrite test_base64_regex_spec.
    split; [intros [_ H]; by right|intros [?|H]; [done|by split]].
Qed.

(** Scenario D, from the theorem: a trailing newline does not matter, an
    exclamation mark does. *)
Lemma isValidBase64_scenario_D_holds :
  isValidBase64 (u "SGVsbG8=" ++ [10]) = true /\ isValidBase64 (u "Hello!") = false.
Proof.
  split.
  - apply (isValidBase64_spec (u "SGVsbG8=" ++ [10])). right.
    apply (bool_decide_unpack _). vm_compute. exact I.
  - destruct (isValidBase64 (u "Hello!")) eqn:Hv; [|reflexivity].
    apply (isValidBase64_spec (u "Hello!")) in Hv as [Hv|Hv]; [discriminate Hv|].
    exfalso. revert Hv. apply (bool_decide_unpack _). vm_compute. exact I.
Defined.

Example isValidBase64_scenario_D :
  isValidBase64 (u "SGVsbG8=" ++ [10]) = true /\ isValidBase64 (u "Hello!") = false.
Proof. split; reflexivity. Qed.

(** * Encoder and decoder *)

(** Claim C8.  Empty input: encoding the empty string gives the empty result
    without a warning, for every key map and separator; so does decoding the
    empty string under any key, and decoding any text under the empty key. *)
Theorem empty_input (keyMap : KeyMap) (K X sep : jsstring) :
  encodeString [] keyMap sep = Enc.mk [] false /\
  decodeString [] K sep = Dec.mk [] false /\
  decodeString X [] sep = Dec.mk [] false.
Proof.
  split_and!; [reflexivity|reflexivity|].
  unfold decodeString. by destruct X.
Qed.

(** Claim C3.  The encoder reads the input in order and emits one token per
    character: the decimal string of the index when the key map has the
    character, the character itself otherwise; the tokens are joined with the
    separator; the warning flag is raised exactly when some character is
    neither in the key map nor white space. *)
Theorem encodeString_per_character (input : jsstring) (keyMap : KeyMap) (sep : jsstring) :
  Enc.result (encodeString input keyMap sep)
  = separated sep (encode_token keyMap <$> input) /\
  (forall c index, keyMap !! c = Some index ->
     is_number_string index (encode_token keyMap c)) /\
  (forall c, keyMap !! c = None -> encode_token keyMap c = [c]) /\
  (Enc.hasUnmapped (encodeString input keyMap sep) = true <->
   exists c, c ∈ input /\ keyMap !! c = None /\ c ∉ whitespace_units).
Proof.
  assert (encodeString input keyMap sep
          = Enc.mk (join sep (encode_token keyMap <$> input))
                   (existsb (unmapped_visible keyMap) input)) as ->.
  { unfold encodeString. destruct (decide (input = [])) as [->|Hne]; [done|].
    replace (falsy input) with false by (by destruct input).
    by rewrite encode_loop. }
  cbn [Enc.result Enc.hasUnmapped]. split_and!.
  - apply join_separated.
  - intros c index Hc. unfold encode_token. rewrite Hc. apply toString_is_number_string.
  - intros c Hc. unfold encode_token. by rewrite Hc.
  - rewrite existsb_exists. unfold unmapped_visible. split.
    + intros (c & Hin & Hc). apply andb_prop in Hc as [Hnone Hws].
      exists c. split_and!; [by apply list_elem_of_In|by apply bool_decide_eq_true in Hnone|].
      by apply is_ws_units_false, negb_true_iff.
    + intros (c & Hin & Hnone & Hws). exists c. split; [by apply list_elem_of_In|].
      apply is_ws_units_false in Hws. by rewrite bool_decide_eq_true_2, Hws.
Qed.

(** Scenario A, from the theorem: the unmapped space is passed through
    between two separators and raises no warning. *)
Lemma encodeString_scenario_A_holds :
  Enc.result (encodeString (u "AB C") (generateKeyMap (u "ABC")) (u " ")) = u "1 2   3" /\
  Enc.hasUnmapped (encodeString (u "AB C") (generateKeyMap (u "ABC")) (u " ")) = false.
Proof.
  destruct (encodeString_per_character (u "AB C") (generateKeyMap (u "ABC")) (u " "))
    as (Hres & _ & _ & Hflag).
  split.
  - etrans; [exact Hres|]. reflexivity.
  - destruct (Enc.hasUnmapped _) eqn:Hun; [|reflexivity]. exfalso.
    destruct (proj1 Hflag eq_refl) as (c & Hc & Hnone & Hws).
    change (u "AB C") with [65; 66; 32; 67] in Hc.
    repeat (apply elem_of_cons in Hc as [->|Hc];
            [first [discriminate Hnone
                   | apply Hws; apply (bool_decide_unpack _); vm_compute; exact I]|]).
    by apply elem_of_nil in Hc.
Defined.

Example encodeString_scenario_A :
  encodeString (u "AB C") (generateKeyMap (u "ABC")) (u " ") = Enc.mk (u "1 2   3") false.
Proof. vm_compute. reflexivity. Qed.

(** Claim C4.  Continuous mode (empty separator, non-empty text and key):
    the text is decoded one character at a time.  A decimal digit is a
    one-digit index: it gives [key[index-1]] when the index lies in
    [1, key.length], otherwise the digit stays and the error flag is raised.
    Any other character stays, and raises the flag only when it is not white
    space. *)
Theorem decodeString_continuous (key encoded : jsstring) :
  key <> [] -> encoded <> [] ->
  decodeString encoded key []
  = Dec.mk (concat ((fun c => (continuous_outcome key c).1) <$> encoded))
           (existsb (fun c => (continuous_outcome key c).2) encoded).
Proof.
  intros Hkey Henc. unfold decodeString.
  destruct encoded as [|c encoded]; [done|]. destruct key as [|k key]; [done|].
  cbn [falsy orb]. rewrite decode_char_loop. by rewrite join_nil.
Qed.

(** Scenario C: the key XYZ decodes 12a3 to XYaZ and reports an error. *)
Lemma decodeString_continuous_XYZ :
  u "XYZ" <> [] /\ u "12a3" <> [] /\
  decodeString (u "12a3") (u "XYZ") [] = Dec.mk (u "XYaZ") true.
Proof.
  split; [done|]. split; [done|].
  rewrite (decodeString_continuous (u "XYZ") (u "12a3")) by done.
  reflexivity.
Defined.

(** What separator mode does as the code stands (non-empty separator, text
    and key): the empty parts of the split are skipped and every other token
    is read with [parseInt], for which a sign and a run of digits at the
    start of the token are enough.  When the value read lies in
    [1, key.length] the token gives [key[index-1]]; when it lies outside, or
    when the token starts with no digits, the token stays as it is and the
    error flag is raised. *)
Theorem decodeString_separator_tokens (key encoded sep : jsstring) :
  key <> [] -> encoded <> [] -> sep <> [] ->
  let toks := filter (fun p => nonempty p = true) (decoder_parts encoded sep) in
  decodeString encoded key sep = decode_with (token_outcome key) toks /\
  forall tok, tok ∈ toks ->
    tok <> [] /\
    match parseInt tok with
    | Some index =>
        if ((1 <=? index)%Z && (index <=? Z.of_nat (length key))%Z)
        then exists k, key !! Z.to_nat (index - 1) = Some k /\
                       token_outcome key tok = ([k], false)
        else token_outcome key tok = (tok, true)
    | None => token_outcome key tok = (tok, true)
    end.
Proof.
  intros Hkey Henc Hsep toks. split; [by apply decodeString_separator|].
  intros tok Htok. split.
  { apply list_elem_of_filter in Htok as [Hne _]. by destruct tok. }
  unfold token_outcome. destruct (parseInt tok) as [index|]; [|done].
  destruct ((1 <=? index)%Z && (index <=? Z.of_nat (length key))%Z) eqn:Hr.
  - destruct (lookup_index_in_range key index) as (k & Hk & _).
    { unfold in_range. lia. }
    rewrite Hk. exists k. split; [|done].
    by apply lookup_index_Some in Hk as [_ Hk].
  - rewrite lookup_index_out_of_range; [done|]. unfold in_range. lia.
Qed.

(** Scenario B: the key ABC decodes [1 2 5] to AB5 and reports an error. *)
Lemma decodeString_separator_ABC :
  u "ABC" <> [] /\ u "1 2 5" <> [] /\ u " " <> [] /\
  decodeString (u "1 2 5") (u "ABC") (u " ") = Dec.mk (u "AB5") true.
Proof.
  split; [done|]. split; [done|]. split; [done|].
  destruct (decodeString_separator_tokens (u "ABC") (u "1 2 5") (u " ")) as [-> _];
    [done|done|done|].
  reflexivity.
Defined.

(** The decoder does not keep every token that is not an integer as a
    whole: its answer is not the one of the strict reading of a token. *)
Lemma decodeString_strict_parse_fails :
  ~ (forall key encoded sep : jsstring,
       key <> [] -> encoded <> [] -> sep <> [] ->
       decodeString encoded key sep
       = decode_with (strict_token_outcome key)
           (filter (fun p => nonempty p = true) (decoder_parts encoded sep))).
Proof.
  intros H. specialize (H (u "ABC") (u "1 2x") (u " ")).
  vm_compute in H. by specialize (H ltac:(done) ltac:(done) ltac:(done)).
Qed.

(** Claim C2 is what the code sets out to do and misses.  The comment in the
    loop says that a part that is not a number is kept, and continuous mode
    flags every character that is not a digit; but separator mode reads a
    token with [parseInt], which stops at the first character that is not a
    digit and keeps what it has read.  Under the key ABC the text [1 2x]
    decodes to AB without an error, although [2x] is not an integer: kept as
    it is, as the claim has it, the answer is A2x with an error.  Continuous
    mode does flag the x of [2x]. *)
Theorem decodeString_accepts_integer_prefix :
  valid_integer (u "2x") = false /\
  parseInt (u "2x") = Some 2%Z /\
  decodeString (u "1 2x") (u "ABC") (u " ") = Dec.mk (u "AB") false /\
  decode_with (strict_token_outcome (u "ABC")) [u "1"; u "2x"] = Dec.mk (u "A2x") true /\
  decodeString (u "2x") (u "ABC") [] = Dec.mk (u "Bx") true.
Proof. split_and!; reflexivity. Qed.

(** Leading white space only adds an empty first part. *)
Lemma split_ws_lead (lead : jsstring) (items : list (jsstring * jsstring)) :
  all_ws lead = true -> spaced items ->
  filter (fun p => nonempty p = true) (split_ws (lead ++ layout items)) = items.*1.
Proof.
  intros Hlead Hsp. unfold split_ws.
  destruct (decide (lead = [])) as [->|Hne].
  - by apply split_ws_layout.
  - rewrite length_app.
    destruct (length lead) as [|n] eqn:Hlen; [by destruct lead|].
    cbn [Nat.add split_loop]. rewrite find_ws_gap by done.
    rewrite (ws_run_layout _ Hsp), Nat.add_0_r, Hlen.
    rewrite filter_cons_False by done.
    rewrite <- Hlen, drop_app_length. apply split_ws_layout; [done|lia].
Qed.




(** Claim C1.  Round trip: when every character of the input occurs in the
    key, and the separator is non-empty and has no decimal digit in it,
    decoding the encoded text gives the input back, without a warning on
    either side.  The key is assumed free of duplicates as in the claim; the
    proof does not use it. *)
Theorem decode_encode_roundtrip (K I sep : jsstring) :
  NoDup K ->
  (forall c, c ∈ I -> c ∈ K) ->
  sep <> [] ->
  (forall c, c ∈ sep -> is_digit c = false) ->
  Dec.result (decodeString (Enc.result (encodeString I (generateKeyMap K) sep)) K sep) = I /\
  Enc.hasUnmapped (encodeString I (generateKeyMap K) sep) = false /\
  Dec.hasErrors (decodeString (Enc.result (encodeString I (generateKeyMap K) sep)) K sep) = false.
Proof.
  intros _ Hin Hsep Hnd.
  assert (Forall (fun t => t <> [] /\ forallb is_digit t = true)
            (encode_token (generateKeyMap K) <$> I)) as Htoks.
  { apply Forall_fmap, Forall_forall. intros c Hc.
    destruct (token_roundtrip K c (Hin c Hc)) as (Hne & Hall & _). by split. }
  rewrite encodeString_tokens.
  2:{ intros c Hc. destruct (token_roundtrip K c (Hin c Hc)) as (Hne & _ & _).
      unfold encode_token in Hne.
      destruct (generateKeyMap K !! c) as [v|] eqn:Hv; [by exists v|].
      exfalso. destruct (first_occurrence K c (Hin c Hc)) as (j & Hj & Hfirst).
      unfold generateKeyMap in Hv.
      by rewrite (generateKeyMap_loop_first K 0 ∅ c j) in Hv. }
  cbn [Enc.result Enc.hasUnmapped].
  destruct I as [|c I].
  - unfold decodeString. simpl. done.
  - assert (K <> []) as HK.
    { intros ->. specialize (Hin c ltac:(by left)). by apply elem_of_nil in Hin. }
    rewrite decodeString_separator; [|done| |done].
    + rewrite decoder_parts_join by done.
      rewrite decode_with_tokens by done. done.
    + rewrite fmap_cons. apply join_nonempty.
      apply Forall_cons in Htoks as [[Hne _] _]. exact Hne.
Qed.

(** The preset key carries its own characters through the codec. *)
Lemma decode_encode_roundtrip_preset :
  NoDup PRESET_BASE64 /\
  Dec.result
    (decodeString
       (Enc.result (encodeString (u "SGVsbG8=") (generateKeyMap PRESET_BASE64) (u " ")))
       PRESET_BASE64 (u " "))
  = u "SGVsbG8=".
Proof.
  assert (NoDup PRESET_BASE64) as Hnd.
  { apply (bool_decide_unpack _). vm_compute. exact I. }
  split; [exact Hnd|].
  apply (decode_encode_roundtrip PRESET_BASE64 (u "SGVsbG8=") (u " ") Hnd).
  - intros c Hc. apply (bool_decide_unpack _).
    revert c Hc. apply Forall_forall. by repeat constructor.
  - done.
  - intros c Hc. apply list_elem_of_singleton in Hc as ->. reflexivity.
Defined.

(** What [parseInt] and [toString] do on a few strings and indices. *)
Example parseInt_examples :
  parseInt (u "12") = Some 12%Z /\ parseInt (u "2x") = Some 2%Z /\
  parseInt (u "2.5") = Some 2%Z /\ parseInt (u "+2") = Some 2%Z /\
  parseInt (u "-1") = Some (-1)%Z /\ parseInt (u " 7") = Some 7%Z /\
  parseInt (u "x2") = None /\ parseInt (u "-") = None.
Proof. split_and!; reflexivity. Qed.

Example toString_examples :
  toString 1 = u "1" /\ toString 10 = u "10" /\ toString 70 = u "70" /\
  toString 0 = u "0" /\ toString (-15) = u "-15".
Proof. split_and!; reflexivity. Qed.

(** * Further properties of the code *)

(** ** The key map and the duplicates *)

Section keymap_more.
Implicit Types (key : list N) (map : gmap N Z) (c d : N) (i : nat) (v : Z).

Lemma generateKeyMap_loop_range key : forall i map c v,
  map !! c = None ->
  generateKeyMap_loop key i map !! c = Some v ->
  exists j, v = (Z.of_nat (i + j) + 1)%Z /\ key !! j = Some c /\
            forall k, (k < j)%nat -> key !! k <> Some c.
Proof.
  intros i map c v Hnone Hv.
  destruct (decide (c ∈ key)) as [Hin|Hnin].
  - destruct (first_occurrence key c Hin) as (j & Hj & Hfirst).
    rewrite (generateKeyMap_loop_first key i map c j) in Hv by done.
    injection Hv as <-. by exists j.
  - by rewrite generateKeyMap_loop_absent in Hv.
Qed.

Lemma generateKeyMap_NoDup key c i :
  NoDup key -> key !! i = Some c ->
  generateKeyMap key !! c = Some (Z.of_nat i + 1)%Z.
Proof.
  intros Hnd Hi. apply (generateKeyMap_loop_first key 0 ∅ c i); [done|done|].
  intros k Hk Hkc. pose proof (NoDup_lookup _ _ _ _ Hnd Hi Hkc). lia.
Qed.
End keymap_more.

(** The key map has an entry exactly for the characters of the key: a
    character that does not occur in the key is looked up in vain. *)
Theorem generateKeyMap_domain (K : list N) (c : N) :
  generateKeyMap K !! c = None <-> c ∉ K.
Proof.
  split.
  - intros Hnone Hin. destruct (first_occurrence K c Hin) as (j & Hj & Hfirst).
    unfold generateKeyMap in Hnone.
    by rewrite (generateKeyMap_loop_first K 0 ∅ c j) in Hnone.
  - intros Hnin. by apply generateKeyMap_loop_absent.
Qed.

(** Looking an index up in the key undoes the key map: an entry [c -> v] has
    [v] in [1, key.length] and [key[v-1] = c], so that no two characters
    share an index. *)
Theorem generateKeyMap_lookup_inverse (K : list N) (c : N) (v : Z) :
  generateKeyMap K !! c = Some v ->
  (1 <= v <= Z.of_nat (length K))%Z /\
  K !! Z.to_nat (v - 1) = Some c /\
  forall d, generateKeyMap K !! d = Some v -> d = c.
Proof.
  intros Hv.
  destruct (generateKeyMap_loop_range K 0 ∅ c v) as (j & -> & Hj & _); [done|done|].
  simpl Nat.add. replace (Z.to_nat (Z.of_nat j + 1 - 1)) with j by lia.
  split_and!.
  - lia.
  - apply lookup_lt_Some in Hj. lia.
  - done.
  - intros d Hd.
    destruct (generateKeyMap_loop_range K 0 ∅ d _ (lookup_empty d) Hd) as (j' & Heq & Hj' & _).
    simpl in Heq. assert (j' = j) as -> by lia. congruence.
Qed.

Lemma generateKeyMap_lookup_inverse_AAB :
  generateKeyMap (u "AAB") !! 66 = Some 3%Z /\
  u "AAB" !! 2%nat = Some 66.
Proof.
  split; [reflexivity|].
  exact (proj1 (proj2 (generateKeyMap_lookup_inverse (u "AAB") 66 3 eq_refl))).
Defined.

Section duplicates.
Context {A : Type}.
Implicit Types (x y : A) (l : list A).

Lemma occurs_twice_nil x : ~ occurs_twice x [].
Proof. intros (i & j & _ & Hi & _). done. Qed.

Lemma occurs_twice_cons x y l :
  occurs_twice x (y :: l) <-> (x = y /\ x ∈ l) \/ occurs_twice x l.
Proof.
  split.
  - intros (i & j & Hij & Hi & Hj). destruct j as [|j]; [lia|]. simpl in Hj.
    destruct i as [|i].
    + left. simpl in Hi. split; [congruence|]. by apply list_elem_of_lookup_2 in Hj.
    + right. exists i, j. split_and!; [lia|done|done].
  - intros [[-> Hin]|(i & j & Hij & Hi & Hj)].
    + apply list_elem_of_lookup_1 in Hin as [j Hj]. exists 0%nat, (S j).
      split_and!; [lia|done|done].
    + exists (S i), (S j). split_and!; [lia|done|done].
Qed.

Lemma NoDup_occurs_twice l : NoDup l <-> forall x, ~ occurs_twice x l.
Proof.
  induction l as [|y l IH].
  - split; [intros _ x; apply occurs_twice_nil|intros _; constructor].
  - rewrite NoDup_cons, IH. split.
    + intros [Hy Hl] x Hx. apply occurs_twice_cons in Hx as [[-> Hin]|Hx]; [done|].
      by apply (Hl x).
    + intros H. split.
      * intros Hin. apply (H y), occurs_twice_cons. by left.
      * intros x Hx. apply (H x), occurs_twice_cons. by right.
Qed.
End duplicates.

Section getDuplicateChars.
Implicit Types (x y : list N) (cps seen dups : list (list N)) (key : list N).

Lemma getDuplicateChars_loop_spec cps : forall seen dups x,
  x ∈ snd (fold_left getDuplicateChars_step cps (seen, dups)) <->
  x ∈ dups \/ (x ∈ seen /\ x ∈ cps) \/ occurs_twice x cps.
Proof.
  induction cps as [|y cps IH]; intros seen dups x.
  - simpl. split; [by left|]. intros [H|[[_ H]|H]]; [done| |].
    + by apply elem_of_nil in H.
    + by apply occurs_twice_nil in H.
  - cbn [fold_left]. unfold getDuplicateChars_step at 2.
    rewrite IH, elem_of_set_add, occurs_twice_cons, elem_of_cons.
    destruct (set_has seen y) eqn:Hy.
    + apply set_has_true in Hy. rewrite elem_of_set_add.
      split.
      * intros [[H| ->]|[[[H| ->] H']|H]]; auto.
      * intros [H|[[H [->|H']]|[[-> H']|H]]]; auto.
    + apply set_has_false in Hy.
      split.
      * intros [H|[[[H| ->] H']|H]]; auto.
      * intros [H|[[H [->|H']]|[[-> H']|H]]]; auto. done.
Qed.

Lemma getDuplicateChars_loop_NoDup_result cps : forall seen dups,
  NoDup dups -> NoDup (snd (fold_left getDuplicateChars_step cps (seen, dups))).
Proof.
  induction cps as [|y cps IH]; intros seen dups Hnd; [done|].
  cbn [fold_left]. unfold getDuplicateChars_step at 2. apply IH.
  destruct (set_has seen y); [by apply NoDup_set_add|done].
Qed.
End getDuplicateChars.

(** [getDuplicateChars] lists, each once, exactly the code points that stand
    at two or more positions of the key. *)
Theorem getDuplicateChars_spec (K : list N) :
  NoDup (getDuplicateChars K) /\
  forall x, x ∈ getDuplicateChars K <-> occurs_twice x (code_points K).
Proof.
  split.
  - apply getDuplicateChars_loop_NoDup_result. constructor.
  - intros x. unfold getDuplicateChars. rewrite getDuplicateChars_loop_spec.
    split; [|by auto]. intros [H|[[H _]|H]]; [| |done]; by apply elem_of_nil in H.
Qed.

(** ** Keys without surrogates, and the sanitizer *)

Section bmp.
Implicit Types (key s : list N) (c : N).

Lemma code_points_no_surrogate key :
  forallb not_surrogate key = true -> code_points key = split_units key.
Proof.
  induction key as [|h t IH]; intros Hkey; [done|].
  apply andb_prop in Hkey as [Hh Ht]. specialize (IH Ht).
  unfold not_surrogate in Hh. apply andb_prop in Hh as [Hh _].
  apply negb_true_iff in Hh.
  destruct t as [|l rest]; [done|].
  change (code_points (h :: l :: rest))
    with (if is_high_surrogate h && is_low_surrogate l
          then [h; l] :: code_points rest else [h] :: code_points (l :: rest)).
  rewrite Hh. cbn [andb]. by rewrite IH.
Qed.

Lemma NoDup_split_units key : NoDup (split_units key) <-> NoDup key.
Proof.
  induction key as [|c key IH]; [split; constructor|].
  change (split_units (c :: key)) with ([c] :: split_units key).
  by rewrite !NoDup_cons, IH, elem_of_split_units.
Qed.

Lemma cleanKey_fixed key : cleanKey key = key <-> NoDup key.
Proof.
  split.
  - intros <-. apply NoDup_cleanKey.
  - apply cleanKey_NoDup.
Qed.

Lemma elem_of_getDuplicateChars key x :
  x ∈ getDuplicateChars key <-> occurs_twice x (code_points key).
Proof.
  unfold getDuplicateChars. rewrite getDuplicateChars_loop_spec.
  split; [|by auto]. intros [H|[[H _]|H]]; [| |done]; by apply elem_of_nil in H.
Qed.

Lemma getDuplicateChars_empty key :
  getDuplicateChars key = [] <-> NoDup (code_points key).
Proof.
  rewrite NoDup_occurs_twice. split.
  - intros Hnil x Hx. apply elem_of_getDuplicateChars in Hx.
    rewrite Hnil in Hx. by apply elem_of_nil in Hx.
  - intros Hnone. destruct (getDuplicateChars key) as [|x l] eqn:Heq; [done|].
    exfalso. apply (Hnone x), elem_of_getDuplicateChars. rewrite Heq. by left.
Qed.
End bmp.

(** For a key without surrogate code units the duplicate report is empty
    exactly when the key has no repeated character, which is exactly when
    [cleanKey] leaves the key as it is. *)
Theorem getDuplicateChars_empty_iff_clean (K : list N) :
  forallb not_surrogate K = true ->
  (getDuplicateChars K = [] <-> NoDup K) /\
  (getDuplicateChars K = [] <-> cleanKey K = K).
Proof.
  intros Hbmp.
  assert (getDuplicateChars K = [] <-> NoDup K) as H.
  { by rewrite getDuplicateChars_empty, code_points_no_surrogate, NoDup_split_units. }
  split; [done|]. by rewrite H, cleanKey_fixed.
Qed.

Lemma getDuplicateChars_empty_iff_clean_ABC :
  forallb not_surrogate (u "ABC") = true /\
  (getDuplicateChars (u "ABC") = [] <-> cleanKey (u "ABC") = u "ABC").
Proof.
  split; [reflexivity|].
  exact (proj2 (getDuplicateChars_empty_iff_clean (u "ABC") eq_refl)).
Defined.

(** Two emoji that share their high surrogate: no code point is repeated,
    yet the key map and [cleanKey] see a repeated code unit. *)
Example surrogate_pairs_share_a_unit :
  let K := [55357; 56832; 55357; 56833] in
  getDuplicateChars K = [] /\ cleanKey K = [55357; 56832; 56833].
Proof. split; reflexivity. Qed.

Section sanitize.
Implicit Types (s : list N) (c : N).

Lemma strip_ws_no_ws s : no_ws (strip_ws s) = true.
Proof.
  unfold no_ws, strip_ws. apply forallb_forall. intros c Hc.
  by apply filter_In in Hc as [_ Hc].
Qed.

Lemma strip_ws_id s : no_ws s = true -> strip_ws s = s.
Proof.
  unfold no_ws, strip_ws. induction s as [|c s IH]; intros Hs; [done|].
  apply andb_prop in Hs as [Hc Hs]. simpl. rewrite Hc. by rewrite IH.
Qed.

Lemma strip_ws_app s t : strip_ws (s ++ t) = strip_ws s ++ strip_ws t.
Proof. unfold strip_ws. apply List.filter_app. Qed.

Lemma strip_ws_all_ws s : strip_ws s = [] <-> all_ws s = true.
Proof.
  unfold strip_ws, all_ws. induction s as [|c s IH]; [done|].
  simpl. destruct (is_ws c); simpl; [done|]. split; done.
Qed.

Lemma elem_of_strip_ws s c : c ∈ strip_ws s <-> c ∈ s /\ is_ws c = false.
Proof.
  unfold strip_ws. rewrite !list_elem_of_In, filter_In, negb_true_iff. done.
Qed.

Lemma drop_ws_nil s : drop_ws s = [] <-> all_ws s = true.
Proof.
  unfold all_ws. induction s as [|c s IH]; [done|].
  simpl. destruct (is_ws c); simpl; [done|]. split; done.
Qed.

Lemma all_ws_reverse s : all_ws (reverse s) = all_ws s.
Proof.
  unfold all_ws. induction s as [|c s IH]; [done|].
  rewrite reverse_cons, forallb_app, IH. simpl. rewrite andb_true_r. apply andb_comm.
Qed.

Lemma drop_ws_all_ws s : all_ws (drop_ws s) = true -> all_ws s = true.
Proof.
  unfold all_ws. induction s as [|c s IH]; [done|].
  simpl. destruct (is_ws c) eqn:Hc; simpl; [done|]. by rewrite Hc.
Qed.

(** A string trims to nothing exactly when it is all white space. *)
Lemma trim_blank s : falsy (trim s) = all_ws s.
Proof.
  unfold trim. destruct (all_ws s) eqn:Hs.
  - by rewrite (proj2 (drop_ws_nil s) Hs).
  - destruct (reverse (drop_ws (reverse (drop_ws s)))) as [|c r] eqn:Hr; [|done].
    exfalso. apply (f_equal reverse) in Hr. rewrite reverse_involutive in Hr.
    change (reverse []) with (@nil N) in Hr.
    apply drop_ws_nil in Hr. rewrite all_ws_reverse in Hr.
    apply drop_ws_all_ws in Hr. congruence.
Qed.
End sanitize.

(** [sanitizeBase64Input] removes the white space and nothing else: it
    returns the text without its white space characters, the others in their
    order and as often as they occur; it works character by character, so
    that it distributes over concatenation; its result has no white space, a
    string without white space is returned as it is (sanitizing twice is
    sanitizing once), and the validator gives a string and its sanitized
    form the same answer. *)
Theorem sanitizeBase64Input_spec (s t : list N) (c : N) :
  sanitizeBase64Input s = without_white_space s /\
  sanitizeBase64Input (s ++ t) = sanitizeBase64Input s ++ sanitizeBase64Input t /\
  sanitizeBase64Input [c] = (if bool_decide (c ∈ whitespace_units) then [] else [c]) /\
  no_ws (sanitizeBase64Input s) = true /\
  (forall d, d ∈ sanitizeBase64Input s <-> d ∈ s /\ is_ws d = false) /\
  (no_ws s = true -> sanitizeBase64Input s = s) /\
  sanitizeBase64Input (sanitizeBase64Input s) = sanitizeBase64Input s /\
  isValidBase64 (sanitizeBase64Input s) = isValidBase64 s.
Proof.
  unfold sanitizeBase64Input. split_and!.
  - apply strip_ws_without_white_space.
  - apply strip_ws_app.
  - unfold strip_ws. simpl. case_bool_decide as Hc.
    + by rewrite (proj2 (is_ws_units c) Hc).
    + by rewrite (proj2 (is_ws_units_false c) Hc).
  - apply strip_ws_no_ws.
  - intros d. apply elem_of_strip_ws.
  - apply strip_ws_id.
  - apply strip_ws_id, strip_ws_no_ws.
  - unfold isValidBase64. rewrite (strip_ws_id (strip_ws s)) by apply strip_ws_no_ws.
    destruct s as [|d s]; [done|]. cbn [falsy].
    destruct (strip_ws (d :: s)) as [|e r] eqn:Hr; [done|]. done.
Qed.

Lemma sanitizeBase64Input_spec_Hello :
  sanitizeBase64Input ([32] ++ u "SGVs" ++ [9; 10] ++ u "bG8= ") = u "SGVsbG8=".
Proof.
  etrans.
  - exact (proj1 (sanitizeBase64Input_spec
                    ([32] ++ u "SGVs" ++ [9; 10] ++ u "bG8= ") [] 0)).
  - reflexivity.
Defined.

(** ** The codec: valid input, concatenation, the other round trip *)

Section codec_more.
Implicit Types (key K input I a b s sep t : list N) (c : N) (keyMap : gmap N Z)
  (ts toks : list (list N)).

Lemma join_app sep ts ts' :
  ts <> [] -> ts' <> [] -> join sep (ts ++ ts') = join sep ts ++ sep ++ join sep ts'.
Proof.
  intros Hts Hts'. induction ts as [|t ts IH]; [done|].
  destruct (decide (ts = [])) as [->|Hne].
  - simpl app. by rewrite join_cons.
  - rewrite <- app_comm_cons, !join_cons, IH, <- !app_assoc; [done|done|done|].
    by destruct ts.
Qed.

Lemma encodeString_all input keyMap sep :
  encodeString input keyMap sep
  = Enc.mk (join sep (encode_token keyMap <$> input))
           (existsb (unmapped_visible keyMap) input).
Proof.
  unfold encodeString. destruct (decide (input = [])) as [->|Hne]; [done|].
  replace (falsy input) with false by (by destruct input).
  by rewrite encode_loop.
Qed.

Lemma decodeString_continuous_all key s :
  key <> [] ->
  decodeString s key []
  = Dec.mk (concat ((fun c => (continuous_outcome key c).1) <$> s))
           (existsb (fun c => (continuous_outcome key c).2) s).
Proof.
  intros Hkey. unfold decodeString.
  destruct s as [|c s]; [done|]. destruct key as [|k key]; [done|].
  cbn [falsy orb]. rewrite decode_char_loop. by rewrite join_nil.
Qed.

Lemma continuous_outcome_length key c : length (continuous_outcome key c).1 = 1%nat.
Proof.
  unfold continuous_outcome. destruct (is_digit c); [|done].
  by destruct (lookup_index key _).
Qed.

(** Round trip, with both answers in full. *)
Lemma roundtrip_tokens K I sep :
  (forall c, c ∈ I -> c ∈ K) ->
  sep <> [] -> (forall c, c ∈ sep -> is_digit c = false) ->
  encodeString I (generateKeyMap K) sep
  = Enc.mk (join sep (encode_token (generateKeyMap K) <$> I)) false /\
  decodeString (join sep (encode_token (generateKeyMap K) <$> I)) K sep
  = Dec.mk I false.
Proof.
  intros Hin Hsep Hnd.
  assert (Forall (fun t => t <> [] /\ forallb is_digit t = true)
            (encode_token (generateKeyMap K) <$> I)) as Htoks.
  { apply Forall_fmap, Forall_forall. intros c Hc.
    destruct (token_roundtrip K c (Hin c Hc)) as (Hne & Hall & _). by split. }
  split.
  - apply encodeString_tokens. intros c Hc.
    destruct (generateKeyMap K !! c) as [v|] eqn:Hv; [by exists v|].
    exfalso. destruct (first_occurrence K c (Hin c Hc)) as (j & Hj & Hfirst).
    unfold generateKeyMap in Hv.
    by rewrite (generateKeyMap_loop_first K 0 ∅ c j) in Hv.
  - destruct I as [|c I]; [by destruct K|].
    assert (K <> []) as HK.
    { intros ->. specialize (Hin c ltac:(by left)). by apply elem_of_nil in Hin. }
    rewrite decodeString_separator; [|done| |done].
    + rewrite decoder_parts_join by done. by apply decode_with_tokens.
    + rewrite fmap_cons. apply join_nonempty.
      apply Forall_cons in Htoks as [[Hne _] _]. exact Hne.
Qed.

Lemma isValidBase64_alphabet s :
  isValidBase64 s = true -> forall c, c ∈ strip_ws s -> c ∈ base64_alphabet.
Proof.
  unfold isValidBase64. destruct s as [|d s]; [intros _ c Hc; by apply elem_of_nil in Hc|].
  cbn [falsy]. cbv zeta.
  destruct (strip_ws (d :: s)) as [|e clean] eqn:Hclean.
  - intros _ c Hc. by apply elem_of_nil in Hc.
  - cbn [length Nat.eqb]. rewrite test_base64_regex_spec. intros [_ Hall] c Hc.
    rewrite Forall_forall in Hall. by apply Hall.
Qed.

Lemma base64_alphabet_in_preset c : c ∈ base64_alphabet -> c ∈ PRESET_BASE64.
Proof.
  revert c. apply Forall_forall.
  apply (bool_decide_unpack _). vm_compute. exact I.
Qed.
End codec_more.

(** A text that the validator accepts is encoded under the preset key
    without a warning once it is sanitized, and decoding the codes gives the
    sanitized text back without an error. *)
Theorem valid_base64_roundtrip (s : list N) :
  isValidBase64 s = true ->
  let r := encodeString (sanitizeBase64Input s) (generateKeyMap PRESET_BASE64) [32] in
  Enc.hasUnmapped r = false /\
  decodeString (Enc.result r) PRESET_BASE64 [32] = Dec.mk (sanitizeBase64Input s) false.
Proof.
  intros Hvalid r. subst r. unfold sanitizeBase64Input.
  destruct (roundtrip_tokens PRESET_BASE64 (strip_ws s) [32]) as [-> Hdec].
  - intros c Hc. by apply base64_alphabet_in_preset, (isValidBase64_alphabet s).
  - done.
  - intros c Hc. apply list_elem_of_singleton in Hc as ->. reflexivity.
  - by split.
Qed.

Lemma valid_base64_roundtrip_Hello :
  isValidBase64 (u "SGVs bG8=" ++ [10]) = true /\
  decodeString
    (Enc.result (encodeString (sanitizeBase64Input (u "SGVs bG8=" ++ [10]))
                   (generateKeyMap PRESET_BASE64) [32]))
    PRESET_BASE64 [32]
  = Dec.mk (u "SGVsbG8=") false.
Proof.
  split; [reflexivity|].
  exact (proj2 (valid_base64_roundtrip (u "SGVs bG8=" ++ [10]) eq_refl)).
Defined.

(** Continuous mode works character by character: the decoding of a
    concatenation is the concatenation of the decodings, an error in either
    part is an error of the whole, and the result is as long as the text. *)
Theorem decodeString_continuous_app (key a b : list N) :
  key <> [] ->
  Dec.result (decodeString (a ++ b) key [])
  = Dec.result (decodeString a key []) ++ Dec.result (decodeString b key []) /\
  Dec.hasErrors (decodeString (a ++ b) key [])
  = Dec.hasErrors (decodeString a key []) || Dec.hasErrors (decodeString b key []) /\
  length (Dec.result (decodeString a key [])) = length a.
Proof.
  intros Hkey. rewrite !decodeString_continuous_all by done.
  cbn [Dec.result Dec.hasErrors]. split_and!.
  - by rewrite fmap_app, concat_app.
  - apply existsb_app.
  - induction a as [|c a IH]; [done|].
    rewrite fmap_cons. cbn [concat]. rewrite length_app, continuous_outcome_length, IH.
    done.
Qed.

Lemma decodeString_continuous_app_XYZ :
  u "XYZ" <> [] /\
  Dec.result (decodeString (u "12" ++ u "a3") (u "XYZ") []) = u "XY" ++ u "aZ".
Proof.
  split; [done|].
  destruct (decodeString_continuous_app (u "XYZ") (u "12") (u "a3")) as (-> & _ & _);
    [done|reflexivity].
Defined.

(** The encoder works character by character: the code of a concatenation
    of two non-empty inputs is the two codes joined by the separator, and a
    warning for either part is a warning for the whole. *)
Theorem encodeString_app (a b : list N) (keyMap : gmap N Z) (sep : list N) :
  a <> [] -> b <> [] ->
  encodeString (a ++ b) keyMap sep
  = Enc.mk (Enc.result (encodeString a keyMap sep) ++ sep
            ++ Enc.result (encodeString b keyMap sep))
           (Enc.hasUnmapped (encodeString a keyMap sep)
            || Enc.hasUnmapped (encodeString b keyMap sep)).
Proof.
  intros Ha Hb. rewrite !encodeString_all. cbn [Enc.result Enc.hasUnmapped].
  rewrite fmap_app, existsb_app, join_app; [done| |]; by destruct a, b.
Qed.

Lemma encodeString_app_ABC :
  u "AB" <> [] /\ u "C?" <> [] /\
  encodeString (u "AB" ++ u "C?") (generateKeyMap (u "ABC")) (u ", ")
  = Enc.mk (u "1, 2, 3, ?") true.
Proof.
  split; [done|]. split; [done|].
  rewrite (encodeString_app (u "AB") (u "C?")) by done. reflexivity.
Defined.

Section reverse.
Implicit Types (K sep : list N) (idx : list Z) (n : Z).

Lemma toString_index n :
  (1 <= n)%Z -> toString n <> [] /\ forallb is_digit (toString n) = true.
Proof.
  intros Hn. unfold toString. rewrite (proj2 (Z.ltb_ge n 0)) by lia.
  destruct (digits_read (Z.to_N n)) as (Hne & Hall & _). by split.
Qed.

Lemma token_outcome_index K n k :
  lookup_index K n = Some k -> token_outcome K (toString n) = ([k], false).
Proof. intros Hk. unfold token_outcome. by rewrite parseInt_toString, Hk. Qed.

Lemma encode_token_index K n k :
  NoDup K -> lookup_index K n = Some k ->
  generateKeyMap K !! k = Some n.
Proof.
  intros Hnd Hk. apply lookup_index_Some in Hk as [Hn Hk].
  rewrite (generateKeyMap_NoDup K k (Z.to_nat (n - 1))) by done.
  f_equal. lia.
Qed.

Lemma decode_with_indices K idx :
  NoDup K -> Forall (fun n => is_Some (lookup_index K n)) idx ->
  decode_with (token_outcome K) (toString <$> idx)
  = Dec.mk (omap (lookup_index K) idx) false /\
  encode_token (generateKeyMap K) <$> omap (lookup_index K) idx = toString <$> idx /\
  existsb (unmapped_visible (generateKeyMap K)) (omap (lookup_index K) idx) = false.
Proof.
  intros Hnd Hidx. unfold decode_with.
  induction idx as [|n idx IH]; [done|].
  apply Forall_cons in Hidx as [[k Hk] Hidx].
  destruct (IH Hidx) as (Hdec & Henc & Hflag). injection Hdec as Hres Herr.
  rewrite !fmap_cons. cbn [concat existsb omap list_omap].
  rewrite (token_outcome_index K n k Hk), Hk. cbn [fst snd orb app].
  fold (omap (lookup_index K) idx).
  rewrite Hres, Herr. split_and!; [done| |].
  - rewrite fmap_cons, Henc. unfold encode_token at 1.
    by rewrite (encode_token_index K n k).
  - cbn [existsb]. rewrite Hflag. unfold unmapped_visible.
    rewrite (encode_token_index K n k) by done.
    by rewrite bool_decide_eq_false_2.
Qed.
End reverse.

(** The other round trip: under a key without duplicates, a code text
    made of indices in [1, key.length], printed in decimal and joined by a
    non-empty separator without digits, decodes without an error, and
    encoding the decoded text gives the code text back without a warning. *)
Theorem encode_decode_roundtrip (K sep : list N) (idx : list Z) :
  NoDup K ->
  sep <> [] -> (forall c, c ∈ sep -> is_digit c = false) ->
  (forall n, n ∈ idx -> (1 <= n <= Z.of_nat (length K))%Z) ->
  let text := join sep (toString <$> idx) in
  Dec.hasErrors (decodeString text K sep) = false /\
  encodeString (Dec.result (decodeString text K sep)) (generateKeyMap K) sep
  = Enc.mk text false.
Proof.
  intros Hnd Hsep Hdig Hidx text. subst text.
  assert (Forall (fun n => is_Some (lookup_index K n)) idx) as Hsome.
  { apply Forall_forall. intros n Hn. specialize (Hidx n Hn).
    destruct (lookup_index_in_range K n) as (k & Hk & _); [unfold in_range; lia|].
    by exists k. }
  destruct (decode_with_indices K idx Hnd Hsome) as (Hdec & Henc & Hflag).
  destruct idx as [|n idx]; [by destruct K|].
  assert (K <> []) as HK.
  { intros ->. specialize (Hidx n ltac:(by left)). simpl in Hidx. lia. }
  assert (Forall (fun t => t <> [] /\ forallb is_digit t = true)
            (toString <$> n :: idx)) as Htoks.
  { apply Forall_fmap, Forall_forall. intros m Hm. apply toString_index.
    by apply Hidx. }
  rewrite decodeString_separator; [|done| |done].
  - rewrite decoder_parts_join by done. rewrite Hdec. cbn [Dec.result Dec.hasErrors].
    split; [done|]. by rewrite encodeString_all, Henc, Hflag.
  - rewrite fmap_cons. apply join_nonempty. apply toString_index.
    apply Hidx. by left.
Qed.

Lemma encode_decode_roundtrip_ABC :
  NoDup (u "ABC") /\
  encodeString (Dec.result (decodeString (u "3 1 2") (u "ABC") (u " ")))
    (generateKeyMap (u "ABC")) (u " ")
  = Enc.mk (u "3 1 2") false.
Proof.
  assert (NoDup (u "ABC")) as Hnd.
  { apply (bool_decide_unpack _). vm_compute. exact I. }
  split; [exact Hnd|].
  apply (encode_decode_roundtrip (u "ABC") (u " ") [3; 1; 2]%Z Hnd).
  - done.
  - intros c Hc. apply list_elem_of_singleton in Hc as ->. reflexivity.
  - intros n Hn. repeat (apply elem_of_cons in Hn as [->|Hn]; [simpl; lia|]).
    by apply elem_of_nil in Hn.
Defined.

(** With a repeated character in the key the other round trip fails: the
    index of the second A decodes to A, which encodes to 1. *)
Example encode_decode_needs_NoDup :
  encodeString (Dec.result (decodeString (u "2") (u "AAB") (u " ")))
    (generateKeyMap (u "AAB")) (u " ")
  = Enc.mk (u "1") false.
Proof. reflexivity. Qed.

(** Separator mode without an error: every non-empty token was an index of
    the key, so the result has one character per token and only characters
    of the key. *)
Theorem decodeString_separator_clean (key encoded sep : list N) :
  key <> [] -> sep <> [] ->
  Dec.hasErrors (decodeString encoded key sep) = false ->
  (forall c, c ∈ Dec.result (decodeString encoded key sep) -> c ∈ key) /\
  length (Dec.result (decodeString encoded key sep))
  = length (filter (fun p => nonempty p = true) (decoder_parts encoded sep)).
Proof.
  intros Hkey Hsep.
  destruct (decide (encoded = [])) as [->|Henc].
  { intros _. replace (decodeString [] key sep) with (Dec.mk [] false) by done.
    cbn [Dec.result]. split; [intros c Hc; by apply elem_of_nil in Hc|].
    unfold decoder_parts. by case_bool_decide. }
  rewrite decodeString_separator by done. unfold decode_with.
  cbn [Dec.result Dec.hasErrors].
  generalize (filter (fun p => nonempty p = true) (decoder_parts encoded sep)).
  intros toks. induction toks as [|t toks IH]; intros Herr.
  - split; [intros c Hc; by apply elem_of_nil in Hc|done].
  - cbn [existsb] in Herr. apply orb_false_iff in Herr as [Ht Herr].
    destruct (IH Herr) as [Hin Hlen]. rewrite fmap_cons. cbn [concat].
    assert (exists k, k ∈ key /\ (token_outcome key t).1 = [k]) as (k & Hk & ->).
    { unfold token_outcome in Ht |- *.
      destruct (parseInt t) as [index|]; [|done].
      destruct (lookup_index key index) as [k|] eqn:Hk; [|done].
      exists k. split; [|done].
      apply lookup_index_Some in Hk as [_ Hk]. by apply list_elem_of_lookup_2 in Hk. }
    split.
    + intros c Hc. apply elem_of_cons in Hc as [->|Hc]; [done|by apply Hin].
    + rewrite length_app, Hlen. done.
Qed.

Lemma decodeString_separator_clean_ABC :
  u "ABC" <> [] /\ u " " <> [] /\
  length (Dec.result (decodeString (u " 3  1 2x ") (u "ABC") (u " "))) = 3%nat.
Proof.
  split; [done|]. split; [done|].
  destruct (decodeString_separator_clean (u "ABC") (u " 3  1 2x ") (u " ")) as [_ ->];
    [done|done|reflexivity|reflexivity].
Defined.

(** ** The round trip without a separator *)

Section continuous_roundtrip.
Implicit Types (K I : list N) (c : N) (n : Z).

Lemma toString_one_digit n :
  (1 <= n <= 9)%Z -> toString n = [48 + Z.to_N n].
Proof.
  intros Hn.
  assert (n = 1 \/ n = 2 \/ n = 3 \/ n = 4 \/ n = 5 \/ n = 6 \/ n = 7 \/ n = 8 \/ n = 9)%Z
    as H by lia.
  repeat (destruct H as [->|H]; [reflexivity|]). by subst.
Qed.

Lemma continuous_token K c :
  (length K <= 9)%nat -> c ∈ K ->
  exists d, encode_token (generateKeyMap K) c = [d] /\
            continuous_outcome K d = ([c], false).
Proof.
  intros Hlen Hin. destruct (first_occurrence K c Hin) as (j & Hj & Hfirst).
  pose proof (lookup_lt_Some _ _ _ Hj) as Hlt.
  unfold encode_token, generateKeyMap.
  rewrite (generateKeyMap_loop_first K 0 ∅ c j) by done. simpl Nat.add.
  rewrite toString_one_digit by lia. eexists. split; [done|].
  unfold continuous_outcome.
  assert (is_digit (48 + Z.to_N (Z.of_nat j + 1)) = true) as -> by (unfold is_digit; lia).
  replace (Z.of_N (48 + Z.to_N (Z.of_nat j + 1)) - 48)%Z with (Z.of_nat j + 1)%Z by lia.
  assert (lookup_index K (Z.of_nat j + 1) = Some c) as ->; [|done].
  apply lookup_index_Some. split; [lia|].
  by replace (Z.to_nat (Z.of_nat j + 1 - 1)) with j by lia.
Qed.
End continuous_roundtrip.

(** Round trip without a separator: under a key of at most nine
    characters every index is one digit, and the codes written one after
    the other decode to the input, character by character. *)
Theorem continuous_roundtrip (K I : list N) :
  (length K <= 9)%nat ->
  (forall c, c ∈ I -> c ∈ K) ->
  decodeString (Enc.result (encodeString I (generateKeyMap K) [])) K []
  = Dec.mk I false.
Proof.
  intros Hlen Hin. rewrite encodeString_all. cbn [Enc.result]. rewrite join_nil.
  destruct (decide (K = [])) as [->|HK].
  { destruct I as [|c I]; [done|].
    specialize (Hin c ltac:(by left)). by apply elem_of_nil in Hin. }
  rewrite decodeString_continuous_all by done.
  induction I as [|c I IH]; [done|].
  destruct (continuous_token K c) as (d & Hd & Hout); [done|apply Hin; by left|].
  assert (forall c', c' ∈ I -> c' ∈ K) as Hin' by (intros c' Hc'; apply Hin; by right).
  specialize (IH Hin'). injection IH as Hres Herr.
  rewrite fmap_cons. cbn [concat]. rewrite Hd. cbn [app fmap list_fmap concat existsb].
  rewrite Hout. cbn [fst snd orb app].
  fold (list_fmap _ _ (fun c0 => (continuous_outcome K c0).1)
                  (concat (encode_token (generateKeyMap K) <$> I))).
  by rewrite Hres, Herr.
Qed.

Lemma continuous_roundtrip_XYZ :
  (length (u "XYZ") <= 9)%nat /\
  decodeString (Enc.result (encodeString (u "ZXY") (generateKeyMap (u "XYZ")) [])) (u "XYZ") []
  = Dec.mk (u "ZXY") false.
Proof.
  split; [simpl; lia|].
  apply (continuous_roundtrip (u "XYZ") (u "ZXY")); [simpl; lia|].
  intros c Hc. apply (bool_decide_unpack _).
  revert c Hc. apply Forall_forall. by repeat constructor.
Defined.

(** With ten characters in the key the tenth is written 10, which is read
    back as the first character followed by a stray 0. *)
Example continuous_mode_ten_characters :
  decodeString (Enc.result (encodeString (u "J") (generateKeyMap (u "ABCDEFGHIJ")) []))
    (u "ABCDEFGHIJ") []
  = Dec.mk (u "A0") true.
Proof. reflexivity. Qed.

(** * The workspace component *)

Section workspace.
Import CipherWorkspace.
Implicit Types (s : State) (c : N) (t : list N) (ts : list (list N)).

Lemma lookup_generateKeyMap_None (K : list N) c :
  generateKeyMap K !! c = None <-> c ∉ K.
Proof.
  split.
  - intros Hnone Hin. destruct (first_occurrence K c Hin) as (j & Hj & Hfirst).
    unfold generateKeyMap in Hnone.
    by rewrite (generateKeyMap_loop_first K 0 ∅ c j) in Hnone.
  - intros Hnin. by apply generateKeyMap_loop_absent.
Qed.

Lemma no_warning_iff (K input : list N) :
  existsb (unmapped_visible (generateKeyMap K)) (strip_ws input) = false <->
  forall c, c ∈ input -> is_ws c = false -> c ∈ K.
Proof.
  rewrite <- not_true_iff_false, existsb_exists. unfold unmapped_visible. split.
  - intros Hno c Hc Hws. destruct (decide (c ∈ K)) as [|Hnin]; [done|].
    exfalso. apply Hno. exists c. split.
    + apply list_elem_of_In, elem_of_strip_ws. by split.
    + rewrite bool_decide_eq_true_2 by (by apply lookup_generateKeyMap_None).
      by rewrite Hws.
  - intros Hall (c & Hc & Hun). apply list_elem_of_In, elem_of_strip_ws in Hc as [Hc Hws].
    apply andb_prop in Hun as [Hnone _]. apply bool_decide_eq_true in Hnone.
    apply lookup_generateKeyMap_None in Hnone. by apply Hnone, Hall.
Qed.

Lemma all_ws_strip_ws (input : list N) :
  all_ws input = true -> forall c, c ∈ input -> is_ws c = true.
Proof.
  unfold all_ws. rewrite forallb_forall. intros H c Hc.
  by apply H, list_elem_of_In.
Qed.

Lemma all_ws_digit_first t ts sep :
  t <> [] -> forallb is_digit t = true -> all_ws (join sep (t :: ts)) = false.
Proof.
  intros Hne Ht. destruct t as [|d t]; [done|].
  apply andb_prop in Ht as [Hd _]. apply is_digit_not_ws in Hd.
  destruct ts; simpl; by rewrite Hd.
Qed.

Lemma tokens_of_blank (input : list N) :
  all_ws input = true ->
  filter (fun p => nonempty p = true) (split_ws input) = [].
Proof.
  intros Hws. pose proof (split_ws_lead input [] Hws I) as H.
  simpl in H. by rewrite app_nil_r in H.
Qed.

Lemma token_outcome_ok (key tok : list N) :
  (token_outcome key tok).2 = false <->
  exists n, parseInt tok = Some n /\ (1 <= n <= Z.of_nat (length key))%Z.
Proof.
  unfold token_outcome. destruct (parseInt tok) as [n|].
  - destruct (lookup_index key n) as [k|] eqn:Hk.
    + apply lookup_index_Some in Hk as [Hn _]. split; [by exists n|done].
    + split; [done|]. intros (m & [= <-] & Hm).
      destruct (lookup_index_in_range key n) as (k & Hk' & _); [unfold in_range; lia|].
      congruence.
  - split; [done|]. by intros (n & ? & _).
Qed.

Lemma visible_in_key_check (K input : list N) :
  forallb (fun c => is_ws c || bool_decide (c ∈ K)) input = true ->
  forall c, c ∈ input -> is_ws c = false -> c ∈ K.
Proof.
  rewrite forallb_forall. intros H c Hc Hws.
  apply list_elem_of_In, H in Hc. rewrite Hws in Hc.
  by apply bool_decide_eq_true in Hc.
Qed.

(** In encode mode the warning appears exactly when the input has a
    character that is neither white space nor in the key; a blank input
    never raises it. *)
Theorem handleProcess_warning s :
  mode s = encode ->
  validationMsg (handleProcess s) = None <->
  forall c, c ∈ inputText s -> is_ws c = false -> c ∈ keyString s.
Proof.
  intros Hmode. unfold handleProcess. rewrite trim_blank, Hmode.
  destruct (all_ws (inputText s)) eqn:Hblank.
  - cbn [validationMsg]. split; [|done]. intros _ c Hc Hws.
    rewrite (all_ws_strip_ws _ Hblank c Hc) in Hws. done.
  - cbn [validationMsg]. unfold keyMap, sanitizeBase64Input.
    rewrite encodeString_all. cbn [Enc.hasUnmapped].
    rewrite <- no_warning_iff.
    by destruct (existsb _ _).
Qed.

Lemma handleProcess_warning_initial :
  let s := {| keyString := u "ABC"; inputText := u "A B" ++ [10] ++ u "C";
              outputText := []; mode := encode; validationMsg := None;
              isCopied := false |} in
  mode s = encode /\ validationMsg (handleProcess s) = None.
Proof.
  intros s. split; [done|].
  apply (handleProcess_warning s); [done|].
  apply visible_in_key_check. reflexivity.
Defined.

(** In decode mode, with a key, the error message stays away exactly when
    every token between the runs of white space starts with an integer in
    [1, key.length]. *)
Theorem handleProcess_error s :
  mode s = decode -> keyString s <> [] ->
  validationMsg (handleProcess s) = None <->
  forall tok, tok ∈ filter (fun p => nonempty p = true) (split_ws (inputText s)) ->
    exists n, parseInt tok = Some n /\ (1 <= n <= Z.of_nat (length (keyString s)))%Z.
Proof.
  intros Hmode Hkey. unfold handleProcess. rewrite trim_blank, Hmode.
  destruct (all_ws (inputText s)) eqn:Hblank.
  - cbn [validationMsg]. rewrite tokens_of_blank by done.
    split; [|done]. intros _ tok Htok. by apply elem_of_nil in Htok.
  - cbn [validationMsg].
    assert (inputText s <> []) as Hne by (intros Heq; by rewrite Heq in Hblank).
    rewrite decodeString_separator by done. unfold decode_with. cbn [Dec.hasErrors].
    unfold decoder_parts, separator. rewrite bool_decide_eq_true_2 by done.
    generalize (filter (fun p => nonempty p = true) (split_ws (inputText s))).
    intros toks. destruct (existsb _ toks) eqn:Hex.
    + split; [done|]. intros Hall. exfalso.
      apply existsb_exists in Hex as (tok & Htok & Hbad).
      apply list_elem_of_In, Hall, token_outcome_ok in Htok. congruence.
    + split; [|done]. intros _ tok Htok. apply token_outcome_ok.
      apply not_true_is_false. intros Hbad.
      assert (existsb (fun t => (token_outcome (keyString s) t).2) toks = true) as Hex'.
      { apply existsb_exists. exists tok. split; [by apply list_elem_of_In|done]. }
      congruence.
Qed.

Lemma handleProcess_error_ABC :
  let s := {| keyString := u "ABC"; inputText := u " 3  1 " ++ [10] ++ u "2";
              outputText := []; mode := decode; validationMsg := None;
              isCopied := false |} in
  mode s = decode /\ keyString s <> [] /\ validationMsg (handleProcess s) = None /\
  forall tok, tok ∈ [u "3"; u "1"; u "2"] ->
    exists n, parseInt tok = Some n /\ (1 <= n <= 3)%Z.
Proof.
  intros s. split; [done|]. split; [done|]. split; [reflexivity|].
  exact (proj1 (handleProcess_error s eq_refl ltac:(done)) eq_refl).
Defined.

(** Encode, swap, decode: when every character of the input that is not
    white space occurs in the key, encoding raises no warning, and after
    "Swap & Switch" decoding returns the input without its white space and
    raises no error. *)
Theorem handleProcess_swap_roundtrip s :
  mode s = encode ->
  all_ws (inputText s) = false ->
  (forall c, c ∈ inputText s -> is_ws c = false -> c ∈ keyString s) ->
  let s1 := handleProcess s in
  let s2 := handleProcess (swapMode s1) in
  validationMsg s1 = None /\
  inputText (swapMode s1) = outputText s1 /\
  mode s2 = decode /\
  outputText s2 = sanitizeBase64Input (inputText s) /\
  validationMsg s2 = None.
Proof.
  intros Hmode Hblank Hin s1 s2. subst s1 s2.
  assert (forall c, c ∈ strip_ws (inputText s) -> c ∈ keyString s) as Hin'.
  { intros c Hc. apply elem_of_strip_ws in Hc as [Hc Hws]. by apply Hin. }
  destruct (roundtrip_tokens (keyString s) (strip_ws (inputText s)) [32])
    as [Henc Hdec]; [done|done| |].
  { intros c Hc. apply list_elem_of_singleton in Hc as ->. reflexivity. }
  assert (strip_ws (inputText s) <> []) as Hne.
  { intros Heq. apply strip_ws_all_ws in Heq. congruence. }
  assert (all_ws (join [32] (encode_token (generateKeyMap (keyString s))
                               <$> strip_ws (inputText s))) = false) as Hout.
  { destruct (strip_ws (inputText s)) as [|c I] eqn:HI; [done|].
    rewrite fmap_cons.
    destruct (token_roundtrip (keyString s) c) as (Ht & Hd & _).
    { apply Hin'. by left. }
    by apply all_ws_digit_first. }
  set (out := join [32] (encode_token (generateKeyMap (keyString s))
                           <$> strip_ws (inputText s))) in *.
  assert (handleProcess s
          = {| keyString := keyString s; inputText := inputText s; outputText := out;
               mode := encode; validationMsg := None; isCopied := isCopied s |}) as ->.
  { unfold handleProcess. rewrite trim_blank, Hblank, Hmode.
    unfold keyMap, sanitizeBase64Input, separator. by rewrite Henc. }
  assert (swapMode
            {| keyString := keyString s; inputText := inputText s; outputText := out;
               mode := encode; validationMsg := None; isCopied := isCopied s |}
          = {| keyString := keyString s; inputText := out; outputText := [];
               mode := decode; validationMsg := None; isCopied := isCopied s |}) as ->.
  { unfold swapMode. cbn [keyString inputText outputText mode isCopied].
    by destruct out. }
  assert (handleProcess
            {| keyString := keyString s; inputText := out; outputText := [];
               mode := decode; validationMsg := None; isCopied := isCopied s |}
          = {| keyString := keyString s; inputText := out;
               outputText := strip_ws (inputText s);
               mode := decode; validationMsg := None; isCopied := isCopied s |}) as ->.
  { unfold handleProcess. cbn [keyString inputText outputText mode isCopied].
    rewrite trim_blank, Hout. unfold separator. by rewrite Hdec. }
  done.
Qed.

Lemma handleProcess_swap_roundtrip_preset :
  let s := {| keyString := PRESET_BASE64; inputText := u "SGVs bG8=";
              outputText := []; mode := encode; validationMsg := None;
              isCopied := false |} in
  outputText (handleProcess (swapMode (handleProcess s))) = u "SGVsbG8=".
Proof.
  intros s.
  destruct (handleProcess_swap_roundtrip s) as (_ & _ & _ & -> & _).
  - done.
  - reflexivity.
  - apply visible_in_key_check. reflexivity.
  - reflexivity.
Defined.

(** "Fix Duplicates": after [handleCleanKey] the duplicate report is empty
    and the button is gone, the key has the characters it had, the key map
    sends the character at every position to that position plus one and
    nothing else, and cleaning again changes nothing. *)
Theorem handleCleanKey_fixes s :
  let s' := handleCleanKey s in
  duplicates s' = [] /\
  showsFixDuplicates s' = false /\
  (forall c, c ∈ keyString s' <-> c ∈ keyString s) /\
  (forall (i : nat) c,
     keyString s' !! i = Some c <-> keyMap s' !! c = Some (Z.of_nat i + 1)%Z) /\
  handleCleanKey s' = s'.
Proof.
  intros s'. subst s'. unfold duplicates, showsFixDuplicates, duplicates, keyMap, handleCleanKey.
  cbn [keyString inputText outputText mode validationMsg isCopied].
  pose proof (NoDup_cleanKey (keyString s)) as Hnd.
  rewrite (getDuplicateChars_NoDup _ Hnd), (cleanKey_NoDup _ Hnd).
  split_and!; [done|done| | |done].
  - intros c. apply elem_of_cleanKey.
  - intros i c. split.
    + by apply generateKeyMap_NoDup.
    + intros Hv.
      destruct (generateKeyMap_loop_range _ 0 ∅ c _ (lookup_empty c) Hv) as (j & Heq & Hj & _).
      simpl in Heq. by replace i with j by lia.
Qed.

(** The badge "Valid Format" promises an encoding without a warning under
    the preset key: whenever it is shown, "Reset to Base64" followed by
    ENCODE leaves no message. *)
Theorem showsValidFormat_no_warning s :
  showsValidFormat s = true ->
  validationMsg (handleProcess (resetKey s)) = None.
Proof.
  unfold showsValidFormat. intros Hshow.
  apply andb_prop in Hshow as [Hshow Hvalid]. apply andb_prop in Hshow as [_ Hmode].
  destruct (mode s) eqn:Hm; [|done].
  unfold handleProcess, resetKey. cbn [inputText mode keyString]. rewrite trim_blank, Hm.
  destruct (all_ws (inputText s)); [done|].
  cbn [validationMsg]. unfold keyMap, sanitizeBase64Input. cbn [keyString].
  rewrite encodeString_all. cbn [Enc.hasUnmapped].
  rewrite (proj2 (no_warning_iff PRESET_BASE64 (inputText s))); [done|].
  intros c Hc Hws. apply base64_alphabet_in_preset, (isValidBase64_alphabet (inputText s));
    [done|]. apply elem_of_strip_ws. by split.
Qed.

Lemma showsValidFormat_no_warning_Hello :
  let s := {| keyString := u "XYZ"; inputText := u "SGVs bG8=";
              outputText := []; mode := encode; validationMsg := None;
              isCopied := false |} in
  showsValidFormat s = true /\ validationMsg (handleProcess (resetKey s)) = None.
Proof.
  intros s. split; [reflexivity|].
  exact (showsValidFormat_no_warning s eq_refl).
Defined.
End workspace.

Section workspace_invariant.
Import CipherWorkspace.

Lemma step_message_matches_mode s e :
  message_matches_mode s -> message_matches_mode (step s e).
Proof.
  unfold message_matches_mode. intros Hs.
  destruct e; cbn [step]; try exact Hs.
  - unfold handleProcess. destruct (falsy (trim (inputText s))); [done|].
    destruct (mode s) eqn:Hm; cbn [validationMsg mode]; rewrite ?Hm.
    + by destruct (Enc.hasUnmapped _).
    + by destruct (Dec.hasErrors _).
  - done.
Qed.

(** Whatever the user does, starting from the first render, the message on
    display belongs to the current mode: a warning is only shown in encode
    mode and an error only in decode mode, because switching the mode clears
    the message. *)
Theorem run_message_matches_mode (events : list Event) :
  message_matches_mode (run events).
Proof.
  unfold run. induction events as [|e events IH] using rev_ind; [done|].
  rewrite fold_left_app. by apply step_message_matches_mode.
Qed.
End workspace_invariant.
